(** * Geometry and ancestry queries of the mathfield editor

    A shallow embedding of [src/editor-mathfield/utils.ts]: the bounds
    cache, the node bounds resolver, the scroll/scale adjuster, the
    whole-range bounding box, the element-info and hyperlink lookups and
    the message-origin validator, followed by the properties the
    specification states about them.

    Conventions of the embedding.
    - A finite JavaScript number is an exact rational [Q]; IEEE rounding and
      signed zeros are not modelled.  The one division of the source whose
      result may be non-finite returns a [number], which adds [NaN] and the
      two infinities.  Where a property depends on rounding, as the sides
      [adjustForScrolling] computes do, the function is also given over the
      binary64 numbers of the source.
    - A JavaScript string is a [string] of 8-bit code units.
    - [Rect] objects are mutable and shared: they live in a heap and are
      handled through locations, so that aliasing between the bounds cache
      and a returned rectangle is visible.
    - A thrown [TypeError] is an explicit [Throw] completion. *)

From Stdlib Require Import ZArith QArith Qround Qminmax Ascii Lia Floats.
From stdpp Require Import base option list strings gmap pretty.

#[local] Set Warnings "-register-all,-inexact-float".
#[local] Open Scope Z_scope.

(** ** JavaScript numbers *)

Inductive number : Type :=
  | NaN
  | Infinity (negative : bool)
  | Num (q : Q).

Definition isNaN (x : number) : bool :=
  match x with NaN => true | _ => false end.

(** [a / b] for two integer-valued operands, [b] being [+0] when zero.  A
    finite quotient is the exact one, which the source rounds to the nearest
    binary64 number. *)
Definition js_div (a b : Z) : number :=
  if b =? 0 then (if a =? 0 then NaN else Infinity (a <? 0))
  else Num (inject_Z a / inject_Z b)%Q.

(** [Math.ceil], [Math.min] and [Math.max] on finite numbers. *)
Definition Math_ceil (q : Q) : Q := inject_Z (Qceiling q).
Definition Math_floor (q : Q) : Z := Qfloor q.
Definition Math_min (a b : Q) : Q := Qmin a b.
Definition Math_max (a b : Q) : Q := Qmax a b.

(** ** JavaScript strings *)

Module JSString.

Definition code (c : ascii) : nat := nat_of_ascii c.

(** The characters [String.prototype.trim] strips: TAB, LF, VT, FF, CR,
    SPACE and NO-BREAK SPACE. *)
Definition isWhiteSpace (c : ascii) : bool :=
  let n := code c in
  ((9 <=? n) && (n <=? 13) || (n =? 32) || (n =? 160))%nat.

(** The characters the regular-expression atom [.] refuses. *)
Definition isLineTerminator (c : ascii) : bool :=
  let n := code c in ((n =? 10) || (n =? 13))%nat.

Fixpoint trimStart (s : string) : string :=
  match s with
  | EmptyString => EmptyString
  | String c s' => if isWhiteSpace c then trimStart s' else s
  end.

Fixpoint trimEnd (s : string) : string :=
  match s with
  | EmptyString => EmptyString
  | String c s' =>
      match trimEnd s' with
      | EmptyString => if isWhiteSpace c then EmptyString else String c EmptyString
      | t => String c t
      end
  end.

Definition trim (s : string) : string := trimEnd (trimStart s).

(** [s.replace(/ /g, '-')] *)
Fixpoint replaceSpaces (s : string) : string :=
  match s with
  | EmptyString => EmptyString
  | String c s' =>
      String (if Ascii.eqb c " " then "-"%char else c) (replaceSpaces s')
  end.

(** [s.split(sep)] for a one-character separator. *)
Fixpoint split (sep : ascii) (s : string) : list string :=
  match s with
  | EmptyString => [EmptyString]
  | String c s' =>
      if Ascii.eqb c sep then EmptyString :: split sep s'
      else match split sep s' with
           | [] => [String c EmptyString]
           | w :: ws => String c w :: ws
           end
  end.

Definition upper (c : ascii) : ascii :=
  let n := code c in
  if ((97 <=? n) && (n <=? 122))%nat then ascii_of_nat (n - 32) else c.

(** [s.toUpperCase()] on ASCII letters. *)
Fixpoint toUpperCase (s : string) : string :=
  match s with
  | EmptyString => EmptyString
  | String c s' => String (upper c) (toUpperCase s')
  end.

Fixpoint all (p : ascii -> bool) (s : string) : bool :=
  match s with
  | EmptyString => true
  | String c s' => p c && all p s'
  end.

Definition nonEmpty (s : string) : bool :=
  match s with EmptyString => false | _ => true end.

(** [s.match(/([^=]+)=(.+$)/)]: the two captured groups of the leftmost
    match.  [run] holds the characters read since the last ['='] (or the
    start): group 1 is a maximal run without ['='], it must be followed
    by ['='] and then by at least one character, none of them a line
    terminator, up to the end of the input.  When the text after an ['=']
    does not qualify, the search resumes after that ['=']. *)
Fixpoint match_from (run s : string) : option (string * string) :=
  match s with
  | EmptyString => None
  | String c s' =>
      if Ascii.eqb c "=" then
        if nonEmpty run && nonEmpty s' && all (fun d => negb (isLineTerminator d)) s'
        then Some (run, s')
        else match_from EmptyString s'
      else match_from (run +:+ String c EmptyString) s'
  end.

Definition match_keyValue (s : string) : option (string * string) :=
  match_from EmptyString s.

End JSString.

(** ** Data model *)

(** [Rect]: a pixel rectangle. *)
Record Rect : Type := mkRect { top : Q; bottom : Q; left : Q; right : Q }.

Definition zeroRect : Rect := mkRect 0 0 0 0.

(** A rendered DOM element, with what the source reads of it:
    [getBoundingClientRect()], [parseInt(getComputedStyle(node).marginRight)],
    [tagName], [dataset.atomId], [classList] and [children]. *)
Inductive Element : Type := mkElement {
  el_bounds : Rect;
  el_marginRight : Z;
  el_tagName : string;
  el_atomId : option string;
  el_classList : list string;
  el_children : list Element }.

(** An argument of a command atom: only strings are told apart. *)
Inductive Argument : Type :=
  | ArgString (s : string)
  | ArgNull
  | ArgAtoms.

(** [Branch]: a named branch, or the [row, col] cell of an array. *)
Inductive Branch : Type :=
  | BranchName (name : string)
  | BranchCell (row col : Z).

Record Style : Type := mkStyle { backgroundColor : option string }.

(** [Atom], with the attributes the source reads.  [parent] is the
    back-reference followed by the ancestry walks. *)
Inductive Atom : Type := mkAtom {
  atom_id : option string;
  parent : option Atom;
  parentBranch : option Branch;
  command : string;
  args : option (list Argument);
  style : Style;
  treeDepth : Z;
  mode : string }.

(** The field element of a mathfield and the model's [at]. *)
Record Field : Type := mkField {
  field_element : Element;
  scrollLeft : Q;
  offsetWidth : Z }.

Record Mathfield : Type := mkMathfield {
  field : Field;
  model_at : Z -> option Atom }.

(** The mutable part: the heap of [Rect] objects, the mathfield's optional
    [atomBoundsCache] (a [Map] from atom id to a [Rect] object) and the log
    of the atom ids looked up in the DOM. *)
Abbreviation loc := nat (only parsing).

Record Store : Type := mkStore {
  heap : list Rect;
  atomBoundsCache : option (gmap string loc);
  domQueries : list string }.

Inductive Error : Type := TypeError.

Inductive Completion (A : Type) : Type :=
  | Normal (a : A)
  | Throw (e : Error).
Arguments Normal {A} a.
Arguments Throw {A} e.

(** Reading a [Rect] object; a location outside the heap reads as the zero
    rectangle (no such location exists in a well-formed store). *)
Definition deref (h : list Rect) (r : loc) : Rect := default zeroRect (h !! r).

Definition alloc (v : Rect) (st : Store) : loc * Store :=
  (length (heap st),
   mkStore (heap st ++ [v]) (atomBoundsCache st) (domQueries st)).

Definition update (r : loc) (f : Rect -> Rect) (st : Store) : Store :=
  mkStore (alter f r (heap st)) (atomBoundsCache st) (domQueries st).

Definition cache_get (id : string) (st : Store) : option loc :=
  match atomBoundsCache st with
  | Some c => c !! id
  | None => None
  end.

Definition cache_set (id : string) (r : loc) (st : Store) : Store :=
  mkStore (heap st) (insert id r <$> atomBoundsCache st) (domQueries st).

Definition cache_delete (id : string) (st : Store) : Store :=
  mkStore (heap st) (delete id <$> atomBoundsCache st) (domQueries st).

Definition log_query (id : string) (st : Store) : Store :=
  mkStore (heap st) (atomBoundsCache st) (domQueries st ++ [id]).

(** ** The functions of [utils.ts] *)

(** A string in a boolean context. *)
Definition truthy (s : option string) : bool :=
  match s with
  | Some (String _ _) => true
  | _ => false
  end.

Definition branchId (atom : Atom) : Completion string :=
  match parent atom with
  | None => Normal "root"
  | Some p =>
      let result := default "" (atom_id p) in
      match parentBranch atom with
      | Some (BranchName b) => Normal (result +:+ "-" +:+ b)
      | Some (BranchCell row _) =>
          Normal (result +:+ "-" +:+ pretty row +:+ "/" +:+ pretty row)
      | None => Throw TypeError
      end
  end.

(** [adjustForScrolling] on exact rationals, with a finite scale factor;
    [adjustForScrolling_on] below is the same function over the binary64
    numbers of the source. *)
Definition adjustForScrolling (mathfield : Mathfield) (rect : option Rect)
    (scaleFactor : Q) : option Rect :=
  match rect with
  | None => None
  | Some rect =>
      let fieldRect := el_bounds (field_element (field mathfield)) in
      let w := (right rect - left rect)%Q in
      let h := (bottom rect - top rect)%Q in
      let left' :=
        Math_ceil (left rect - left fieldRect
                   + scrollLeft (field mathfield) * scaleFactor)%Q in
      let top' := Math_ceil (top rect - top fieldRect)%Q in
      Some {| left := left'; right := (left' + w)%Q;
              top := top'; bottom := (top' + h)%Q |}
  end.

(** The union of two rectangles: the least top and left, the greatest
    bottom and right. *)
Definition rect_union (a b : Rect) : Rect :=
  {| top := Math_min (top a) (top b);
     bottom := Math_max (bottom a) (bottom b);
     left := Math_min (left a) (left b);
     right := Math_max (right a) (right b) |}.

Definition classList_contains (cls : string) (e : Element) : bool :=
  bool_decide (cls ∈ el_classList e).

Fixpoint getNodeBounds (node : Element) : Rect :=
  let bounds := el_bounds node in
  let result :=
    {| top := (top bounds - 1)%Q;
       bottom := bottom bounds;
       left := left bounds;
       right := (right bounds - 1 + inject_Z (el_marginRight node))%Q |} in
  if (length (el_children node) =? 0)%nat
     || String.eqb (JSString.toUpperCase (el_tagName node)) "SVG"
  then result
  else
    fold_left
      (fun result child =>
         if bool_decide (is_Some (el_atomId child))
            && negb (classList_contains "ML__pstrut" child)
         then
           let r := getNodeBounds child in
           {| left := Math_min (left result) (left r);
              right := Math_max (right result) (right r);
              top := Math_min (top result) (top r);
              bottom := Math_max (bottom result) (bottom r) |}
         else result)
      (el_children node) result.

(** [field.querySelector(`[data-atom-id="${id}"]`)]: the first descendant,
    in document order, carrying that atom id. *)
Fixpoint querySelectorAtomId (id : string) (e : Element) : option Element :=
  (fix first (cs : list Element) : option Element :=
     match cs with
     | [] => None
     | c :: cs' =>
         if bool_decide (el_atomId c = Some id) then Some c
         else match querySelectorAtomId id c with
              | Some n => Some n
              | None => first cs'
              end
     end) (el_children e).

Definition getAtomBounds (mathfield : Mathfield) (atom : Atom) (st : Store)
    : option loc * Store :=
  if negb (truthy (atom_id atom)) then (None, st)
  else
    let id := default "" (atom_id atom) in
    match cache_get id st with
    | Some result => (Some result, st)
    | None =>
        let st := log_query id st in
        match querySelectorAtomId id (field_element (field mathfield)) with
        | Some node =>
            let '(result, st) := alloc (getNodeBounds node) st in
            (Some result, cache_set id result st)
        | None => (None, cache_delete id st)
        end
    end.

Definition set_top (v : Q) (r : Rect) : Rect := mkRect v (bottom r) (left r) (right r).
Definition set_bottom (v : Q) (r : Rect) : Rect := mkRect (top r) v (left r) (right r).
Definition set_left (v : Q) (r : Rect) : Rect := mkRect (top r) (bottom r) v (right r).
Definition set_right (v : Q) (r : Rect) : Rect := mkRect (top r) (bottom r) (left r) v.

(** The four assignments [result.top = Math.min(result.top, bounds.top)],
    ... of [getRangeBoundingRect], performed in place on the object
    [result], one after the other. *)
Definition extend (result bounds : loc) (st : Store) : Store :=
  let st := update result
    (set_top (Math_min (top (deref (heap st) result)) (top (deref (heap st) bounds)))) st in
  let st := update result
    (set_bottom (Math_max (bottom (deref (heap st) result)) (bottom (deref (heap st) bounds)))) st in
  let st := update result
    (set_left (Math_min (left (deref (heap st) result)) (left (deref (heap st) bounds)))) st in
  update result
    (set_right (Math_max (right (deref (heap st) result)) (right (deref (heap st) bounds)))) st.

(** The loop [for (let i = start; i <= end; i++)], with [n] iterations left.
    [mf.model.at(i)] may be [undefined], on which [getAtomBounds] fails
    reading [atom.id]. *)
Fixpoint getRangeBoundingRect_loop (mf : Mathfield) (n : nat) (i : Z)
    (result : option loc) (st : Store) : Completion (option loc * Store) :=
  match n with
  | O => Normal (result, st)
  | S n' =>
      match model_at mf i with
      | None => Throw TypeError
      | Some atom =>
          let '(bounds, st) := getAtomBounds mf atom st in
          match bounds with
          | Some bounds =>
              match result with
              | None => getRangeBoundingRect_loop mf n' (i + 1) (Some bounds) st
              | Some result =>
                  getRangeBoundingRect_loop mf n' (i + 1) (Some result)
                    (extend result bounds st)
              end
          | None => getRangeBoundingRect_loop mf n' (i + 1) result st
          end
      end
  end.

Definition Range : Type := Z * Z.

Definition getRangeBoundingRect (mf : Mathfield) (range : Range) (st : Store)
    : Completion (loc * Store) :=
  let '(start, end_) := range in
  match getRangeBoundingRect_loop mf (Z.to_nat (end_ - start + 1)) start None st with
  | Throw e => Throw e
  | Normal (Some result, st) => Normal (result, st)
  | Normal (None, st) => Normal (alloc zeroRect st)
  end.

(** Steps 1 to 3 of [getRangeBounds]: the scale factor of the field. *)
Definition getRangeBounds_scaleFactor (mathfield : Mathfield) : number :=
  let field := field mathfield in
  let offsetWidth := offsetWidth field in
  let fieldRect := el_bounds (field_element field) in
  let actualWidth := Math_floor (right fieldRect - left fieldRect)%Q in
  let scaleFactor := js_div actualWidth offsetWidth in
  if isNaN scaleFactor then Num 1 else scaleFactor.

(** [OriginValidator]: a string, a predicate, or any other value. *)
Inductive OriginValidator : Type :=
  | OVString (s : string)
  | OVFunction (f : string -> bool)
  | OVOther.

Definition is_string (v : OriginValidator) (s : string) : bool :=
  match v with
  | OVString s' => String.eqb s' s
  | _ => false
  end.

(** [window_origin] is [window.origin]. *)
Definition validateOrigin (window_origin : option string) (origin : string)
    (originValidator : OriginValidator) : bool :=
  if String.eqb origin "*" || is_string originValidator "none" then true
  else if is_string originValidator "same-origin" then
    negb (truthy window_origin)
    || bool_decide (Some origin = window_origin)
  else match originValidator with
       | OVFunction f => f origin
       | _ => false
       end.

Record DOMRect : Type := mkDOMRect { x : Q; y : Q; width : Q; height : Q }.

(** [ElementInfo]; [undefined] is the [data] value of a bare key. *)
Record ElementInfo : Type := mkElementInfo {
  info_bounds : option DOMRect;
  info_depth : Z;
  info_style : Style;
  info_data : option (gmap string (option string));
  info_id : option string;
  info_latex : option string }.

(** [a.args && typeof a.args[0] === 'string'], with the string. *)
Definition firstStringArg (a : Atom) : option string :=
  match args a with
  | Some (ArgString s :: _) => Some s
  | _ => None
  end.

(** [if (!result.data) result.data = {}; result.data[key] = v].
    [result.data] is a plain object, held here as the map of its own
    properties.  The assignment adds or overwrites the property [key], but
    for the key ["__proto__"]: there it runs the setter inherited from
    [Object.prototype], which ignores a string and [undefined], so that
    no property is stored (the object has been created all the same). *)
Definition set_data (key : string) (v : option string)
    (data : option (gmap string (option string)))
    : option (gmap string (option string)) :=
  let object := default ∅ data in
  Some (if String.eqb key "__proto__" then object else <[key := v]> object).

(** The body of [for (const entry of entries)]. *)
Definition htmlData_entry (data : option (gmap string (option string)))
    (entry : string) : option (gmap string (option string)) :=
  match JSString.match_keyValue entry with
  | Some (m1, m2) =>
      let key := JSString.replaceSpaces (JSString.trim m1) in
      if JSString.nonEmpty key then set_data key (Some m2) data else data
  | None =>
      let key := JSString.replaceSpaces (JSString.trim entry) in
      if JSString.nonEmpty key then set_data key None data else data
  end.

(** The loop [while (a) { ...; a = a.parent }] of [getElementInfo]. *)
Fixpoint getElementInfo_walk (a : Atom)
    (data : option (gmap string (option string))) (id : option string)
    : option (gmap string (option string)) * option string :=
  let data :=
    if String.eqb (command a) "\htmlData" then
      match firstStringArg a with
      | Some s => fold_left htmlData_entry (JSString.split "," s) data
      | None => data
      end
    else data in
  let id :=
    if String.eqb (command a) "\htmlId" || String.eqb (command a) "\cssId" then
      if negb (truthy id) then
        match firstStringArg a with
        | Some s => Some s
        | None => id
        end
      else id
    else id in
  match parent a with
  | Some p => getElementInfo_walk p data id
  | None => (data, id)
  end.

(** [serialize a] is [Atom.serialize([a], { defaultMode: 'math' })]. *)
Definition getElementInfo (serialize : Atom -> string)
    (mf : option Mathfield) (offset : Z) (st : Store)
    : option ElementInfo * Store :=
  match mf with
  | None => (None, st)
  | Some mf =>
      match model_at mf offset with
      | None => (None, st)
      | Some atom =>
          let '(bounds, st) := getAtomBounds mf atom st in
          let info_bounds :=
            match bounds with
            | Some b =>
                let bounds := deref (heap st) b in
                Some (mkDOMRect (left bounds) (top bounds)
                        (right bounds - left bounds)%Q
                        (bottom bounds - top bounds)%Q)
            | None => None
            end in
          let '(data, id) := getElementInfo_walk atom None None in
          let latex :=
            if String.eqb (mode atom) "math" || String.eqb (mode atom) "text"
            then Some (serialize atom) else None in
          (Some (mkElementInfo info_bounds (treeDepth atom - 2) (style atom)
                   data id latex), st)
      end
  end.

(** The loop of [getHref]; [a.args[0]] fails when [a.args] is [undefined]. *)
Fixpoint getHref_walk (a : Atom) : Completion string :=
  let next :=
    match parent a with
    | Some p => getHref_walk p
    | None => Normal ""
    end in
  if String.eqb (command a) "\href" then
    match args a with
    | None => Throw TypeError
    | Some (ArgString url :: _) => Normal url
    | Some _ => next
    end
  else next.

Definition getHref (mf : Mathfield) (offset : Z) : Completion string :=
  match model_at mf offset with
  | Some a => getHref_walk a
  | None => Normal ""
  end.

(** ** Reference definitions used by the statements *)

(** The atom and its ancestors, from the atom toward the root. *)
Fixpoint chain (a : Atom) : list Atom :=
  a :: match parent a with
       | Some p => chain p
       | None => []
       end.

(** The rectangle [getAtomBounds] resolves for an atom in a store, if any. *)
Definition atomBoundsValue (mathfield : Mathfield) (atom : Atom) (st : Store)
    : option Rect :=
  let '(r, st') := getAtomBounds mathfield atom st in
  deref (heap st') <$> r.

(** The indices [i, i + 1, ...] visited by [n] iterations of a [for] loop. *)
Fixpoint indices (i : Z) (n : nat) : list Z :=
  match n with
  | O => []
  | S n' => i :: indices (i + 1) n'
  end.

(** The atoms at the indices [start] to [end_], both included. *)
Definition rangeAtoms (mf : Mathfield) (start end_ : Z) : list Atom :=
  omap (model_at mf) (indices start (Z.to_nat (end_ - start + 1))).

(** The union of a list of rectangles: the least top and left, the greatest
    bottom and right; the zero rectangle for no rectangle at all. *)
Definition boundingRect (l : list Rect) : Rect :=
  match l with
  | [] => zeroRect
  | r :: rs => fold_left rect_union rs r
  end.

(** [u] encloses [v]. *)
Definition encloses (u v : Rect) : Prop :=
  (top u <= top v)%Q ∧ (bottom v <= bottom u)%Q ∧
  (left u <= left v)%Q ∧ (right v <= right u)%Q.

(** No cache entry refers to a location outside the heap. *)
Definition store_wf (st : Store) : Prop :=
  ∀ id l, cache_get id st = Some l → (l < length (heap st))%nat.

(** The rectangle an atom id resolves to in the store [st0]: the cached one,
    or else the bounds of its node. *)
Definition resolved (mf : Mathfield) (st0 : Store) (id : string) : option Rect :=
  match cache_get id st0 with
  | Some l => Some (deref (heap st0) l)
  | None => getNodeBounds <$> querySelectorAtomId id (field_element (field mf))
  end.

(** The invariant of the loop of [getRangeBoundingRect], started in [st0]:
    a cached rectangle still holds the value its id resolved to in [st0],
    unless it is the object [result], which encloses that value. *)
Record loop_inv (mf : Mathfield) (st0 : Store) (result : option loc)
    (st : Store) : Prop := mkLoopInv {
  inv_wf : store_wf st;
  inv_result : ∀ r, result = Some r → (r < length (heap st))%nat;
  inv_hit : ∀ id l, cache_get id st = Some l →
    ∃ v0, resolved mf st0 id = Some v0 ∧
      if decide (result = Some l) then encloses (deref (heap st) l) v0
      else deref (heap st) l = v0;
  inv_miss : ∀ id, cache_get id st = None → cache_get id st0 = None }.

(** One more rectangle in a running union. *)
Definition accumulate (acc : option Rect) (v : Rect) : option Rect :=
  Some match acc with
       | None => v
       | Some u => rect_union u v
       end.

(** The entry a token of a custom-data argument stands for: [key=value] or
    a bare [key], the key trimmed and its spaces replaced by hyphens; a
    token whose key is empty stands for nothing. *)
Definition htmlData_token (entry : string) : option (string * option string) :=
  let '(k, v) :=
    match JSString.match_keyValue entry with
    | Some (m1, m2) => (m1, Some m2)
    | None => (entry, None)
    end in
  let key := JSString.replaceSpaces (JSString.trim k) in
  if JSString.nonEmpty key then Some (key, v) else None.

(** The entries of a custom-data argument, in the order of its tokens. *)
Definition htmlData_entries (s : string) : list (string * option string) :=
  omap htmlData_token (JSString.split "," s).

(** The entries an atom contributes: those of its first argument when it is
    an [\htmlData] command whose first argument is a string. *)
Definition htmlData_of (a : Atom) : list (string * option string) :=
  if String.eqb (command a) "\htmlData" then
    match firstStringArg a with
    | Some s => htmlData_entries s
    | None => []
    end
  else [].

(** All the entries on the chain of an atom, the atom's own first. *)
Definition chain_entries (a : Atom) : list (string * option string) :=
  concat (htmlData_of <$> chain a).

(** One more entry in the data of an [ElementInfo]. *)
Definition data_add (data : option (gmap string (option string)))
    (e : string * option string) : option (gmap string (option string)) :=
  set_data e.1 e.2 data.

(** The value of the last entry of [es] for [key], if there is one. *)
Fixpoint last_entry (key : string) (es : list (string * option string))
    : option (option string) :=
  match es with
  | [] => None
  | (k, v) :: es' =>
      match last_entry key es' with
      | Some r => Some r
      | None => if decide (k = key) then Some v else None
      end
  end.

(** What the data object holds for [key] after the entries [es] have been
    assigned in order: the value of the last entry for [key], and nothing
    for the key ["__proto__"], which a plain object does not store. *)
Definition stored_entry (key : string) (es : list (string * option string))
    : option (option string) :=
  if String.eqb key "__proto__" then None else last_entry key es.

(** The first argument of the nearest [\htmlData] command on the chain whose
    first argument is a string. *)
Definition nearest_htmlData (a : Atom) : option string :=
  head (filter (λ c, command c = "\htmlData" ∧ is_Some (firstStringArg c))
          (chain a))
  ≫= firstStringArg.

(** The first atom on the chain whose command is [\href] and whose first
    argument is a string, with that string. *)
Definition href_target (a : Atom) : option string :=
  head (filter (λ c, command c = "\href" ∧ is_Some (firstStringArg c))
          (chain a))
  ≫= firstStringArg.

(** Every [\href] atom on the chain has an argument list. *)
Definition href_args_present (a : Atom) : Prop :=
  ∀ c, c ∈ chain a → command c = "\href" → is_Some (args c).

(** ** Example inputs *)

Definition atom_root : Atom :=
  mkAtom (Some "p") None None "" None (mkStyle None) 0 "math".

Definition atom_body : Atom :=
  mkAtom (Some "c") (Some atom_root) (Some (BranchName "body")) "" None
    (mkStyle None) 1 "math".

Definition atom_cell : Atom :=
  mkAtom (Some "d") (Some atom_root) (Some (BranchCell 2 5)) "" None
    (mkStyle None) 1 "math".

Definition atom_href_noargs : Atom :=
  mkAtom (Some "h") None None "\href" None (mkStyle None) 0 "math".

Definition atom_href_outer : Atom :=
  mkAtom (Some "o") None None "\href" (Some [ArgString "https://a"; ArgAtoms])
    (mkStyle None) 0 "math".

Definition atom_href_inner_noargs : Atom :=
  mkAtom (Some "i") (Some atom_href_outer) (Some (BranchName "body")) "\href"
    None (mkStyle None) 1 "math".

Definition atom_leaf : Atom :=
  mkAtom (Some "x") (Some atom_href_inner_noargs) (Some (BranchName "body"))
    "x" None (mkStyle None) 2 "math".

Definition mathfield_of (atoms : list Atom) : Mathfield :=
  mkMathfield
    (mkField (mkElement zeroRect 0 "SPAN" None [] []) 0 0)
    (fun i => if i <? 0 then None else atoms !! Z.to_nat i).


(** A field with two rendered atoms, ["a"] and ["b"]. *)
Definition node_a : Element :=
  mkElement (mkRect 10 30 5 25) 0 "SPAN" (Some "a") [] [].

Definition node_b : Element :=
  mkElement (mkRect 20 50 25 45) 0 "SPAN" (Some "b") [] [].

Definition field_ab : Field :=
  mkField (mkElement (mkRect 0 60 0 100) 0 "SPAN" None [] [node_a; node_b]) 0 100.

Definition atom_a : Atom :=
  mkAtom (Some "a") None None "a" None (mkStyle None) 0 "math".

Definition atom_b : Atom :=
  mkAtom (Some "b") None None "b" None (mkStyle None) 0 "math".

Definition mathfield_ab : Mathfield :=
  mkMathfield field_ab
    (fun i => if i <? 0 then None else [atom_a; atom_b] !! Z.to_nat i).

(** A store without bounds cache, and one whose cache holds both atoms. *)
Definition store_nocache : Store := mkStore [] None [].

Definition store_cached : Store :=
  mkStore [mkRect 0 10 0 10; mkRect 5 20 5 20]
    (Some {[ "a" := 0%nat; "b" := 1%nat ]}) [].

(** Two nested [\htmlData] commands around a leaf. *)
Definition atom_data_outer : Atom :=
  mkAtom (Some "o") None None "\htmlData" (Some [ArgString "a=1"; ArgAtoms])
    (mkStyle None) 0 "math".

Definition atom_data_inner : Atom :=
  mkAtom (Some "i") (Some atom_data_outer) (Some (BranchName "body"))
    "\htmlData" (Some [ArgString "a=2, b"; ArgAtoms]) (mkStyle None) 1 "math".

Definition atom_data_leaf : Atom :=
  mkAtom (Some "x") (Some atom_data_inner) (Some (BranchName "body"))
    "x" None (mkStyle None) 2 "math".

Definition serialize_none (a : Atom) : string := "".

(** ** The other functions of [utils.ts] *)

(** [element.querySelector(selector)] for a selector that tests one element
    at a time: the first descendant, in document order, that passes. *)
Fixpoint querySelectorBy (p : Element → bool) (e : Element) : option Element :=
  (fix first (cs : list Element) : option Element :=
     match cs with
     | [] => None
     | c :: cs' =>
         if p c then Some c
         else match querySelectorBy p c with
              | Some n => Some n
              | None => first cs'
              end
     end) (el_children e).

(** [element.querySelector('.cls')] *)
Definition querySelectorClass (cls : string) (e : Element) : option Element :=
  querySelectorBy (classList_contains cls) e.

Definition findElementWithCaret (element : Element) : option Element :=
  match querySelectorClass "ML__caret" element with
  | Some e => Some e
  | None =>
      match querySelectorClass "ML__text-caret" element with
      | Some e => Some e
      | None => querySelectorClass "ML__latex-caret" element
      end
  end.

Record CaretPoint : Type := mkCaretPoint {
  caret_x : Q;
  caret_y : Q;
  caret_height : Q }.

(** [bounds.height] of a [DOMRect] is [bottom - top]. *)
Definition getCaretPoint (element : Element) : option CaretPoint :=
  match findElementWithCaret element with
  | None => None
  | Some caret =>
      let bounds := el_bounds caret in
      Some {| caret_x := right bounds;
              caret_y := bottom bounds;
              caret_height := (bottom bounds - top bounds)%Q |}
  end.

(** An [HTMLElement] as [getLocalDOMRect] reads it: integer offsets and
    sizes, and the [offsetParent] it is positioned in. *)
Inductive HTMLElement : Type := mkHTMLElement {
  html_offsetTop : Z;
  html_offsetLeft : Z;
  html_offsetWidth : Z;
  html_offsetHeight : Z;
  html_offsetParent : option HTMLElement }.

(** The loop [while (el instanceof HTMLElement)] of [getLocalDOMRect]. *)
Fixpoint getLocalDOMRect_loop (el : HTMLElement) (offsetTop offsetLeft : Z)
    : Z * Z :=
  let offsetTop := offsetTop + html_offsetTop el in
  let offsetLeft := offsetLeft + html_offsetLeft el in
  match html_offsetParent el with
  | Some p => getLocalDOMRect_loop p offsetTop offsetLeft
  | None => (offsetTop, offsetLeft)
  end.

Definition getLocalDOMRect (el : HTMLElement) : DOMRect :=
  let width := html_offsetWidth el in
  let height := html_offsetHeight el in
  let '(offsetTop, offsetLeft) := getLocalDOMRect_loop el 0 0 in
  mkDOMRect (inject_Z offsetLeft) (inject_Z offsetTop)
    (inject_Z width) (inject_Z height).

(** *** Arithmetic on numbers that may not be finite *)

Definition Qis_zero (q : Q) : bool := (Qnum q =? 0)%Z.
Definition Qis_negative (q : Q) : bool := (Qnum q <? 0)%Z.

Definition number_add (a b : number) : number :=
  match a, b with
  | NaN, _ | _, NaN => NaN
  | Infinity n, Infinity m => if Bool.eqb n m then Infinity n else NaN
  | Infinity n, Num _ => Infinity n
  | Num _, Infinity m => Infinity m
  | Num x, Num y => Num (x + y)%Q
  end.

Definition number_mul (a b : number) : number :=
  match a, b with
  | NaN, _ | _, NaN => NaN
  | Infinity n, Infinity m => Infinity (xorb n m)
  | Infinity n, Num x | Num x, Infinity n =>
      if Qis_zero x then NaN else Infinity (xorb n (Qis_negative x))
  | Num x, Num y => Num (x * y)%Q
  end.

Definition number_ceil (a : number) : number :=
  match a with
  | Num x => Num (Math_ceil x)
  | _ => a
  end.

Definition number_min (a b : number) : number :=
  match a, b with
  | NaN, _ | _, NaN => NaN
  | Infinity true, _ | _, Infinity true => Infinity true
  | Infinity false, c | c, Infinity false => c
  | Num x, Num y => Num (Math_min x y)
  end.

Definition number_max (a b : number) : number :=
  match a, b with
  | NaN, _ | _, NaN => NaN
  | Infinity false, _ | _, Infinity false => Infinity false
  | Infinity true, c | c, Infinity true => c
  | Num x, Num y => Num (Math_max x y)
  end.

(** A [Rect] whose sides may not be finite. *)
Record NRect : Type := mkNRect {
  ntop : number; nbottom : number; nleft : number; nright : number }.

Definition NRect_of (r : Rect) : NRect :=
  mkNRect (Num (top r)) (Num (bottom r)) (Num (left r)) (Num (right r)).

(** [adjustForScrolling] with the scale factor [getRangeBounds] passes,
    which may be infinite. *)
Definition adjustForScrolling_number (mathfield : Mathfield)
    (rect : option Rect) (scaleFactor : number) : option NRect :=
  match rect with
  | None => None
  | Some rect =>
      let fieldRect := el_bounds (field_element (field mathfield)) in
      let w := Num (right rect - left rect)%Q in
      let h := Num (bottom rect - top rect)%Q in
      let left' :=
        number_ceil
          (number_add (Num (left rect - left fieldRect)%Q)
             (number_mul (Num (scrollLeft (field mathfield))) scaleFactor)) in
      let top' := number_ceil (Num (top rect - top fieldRect)%Q) in
      Some {| nleft := left'; nright := number_add left' w;
              ntop := top'; nbottom := number_add top' h |}
  end.

(** The rest of the model: [model.getAtoms(range, { includeChildren: true })]
    and [model.selection.ranges]. *)
Record Model : Type := mkModel {
  getAtoms : Range → list Atom;
  selection_ranges : list Range }.

(** [Map<string, Rect>], in insertion order. *)
Fixpoint rects_get (id : string) (rects : list (string * NRect)) : option NRect :=
  match rects with
  | [] => None
  | (k, r) :: rest => if String.eqb k id then Some r else rects_get id rest
  end.

Fixpoint rects_set (id : string) (v : NRect) (rects : list (string * NRect))
    : list (string * NRect) :=
  match rects with
  | [] => [(id, v)]
  | (k, r) :: rest =>
      if String.eqb k id then (k, v) :: rest else (k, r) :: rects_set id v rest
  end.

Definition NRect_union (r bounds : NRect) : NRect :=
  {| nleft := number_min (nleft r) (nleft bounds);
     nright := number_max (nright r) (nright bounds);
     ntop := number_min (ntop r) (ntop bounds);
     nbottom := number_max (nbottom r) (nbottom bounds) |}.

(** The loop [for (const atom of mathfield.model.getAtoms(...))] of
    [getRangeBounds]. *)
Fixpoint getRangeBounds_loop (mathfield : Mathfield)
    (excludeAtomsWithBackground : bool) (scaleFactor : number)
    (atoms : list Atom) (rects : list (string * NRect)) (st : Store)
    : Completion (list (string * NRect) * Store) :=
  match atoms with
  | [] => Normal (rects, st)
  | atom :: atoms' =>
      if excludeAtomsWithBackground && truthy (backgroundColor (style atom))
      then getRangeBounds_loop mathfield excludeAtomsWithBackground
             scaleFactor atoms' rects st
      else
        let '(b, st) := getAtomBounds mathfield atom st in
        match adjustForScrolling_number mathfield (deref (heap st) <$> b)
                scaleFactor with
        | Some bounds =>
            match branchId atom with
            | Throw e => Throw e
            | Normal id =>
                match rects_get id rects with
                | Some r =>
                    getRangeBounds_loop mathfield excludeAtomsWithBackground
                      scaleFactor atoms'
                      (rects_set id (NRect_union r bounds) rects) st
                | None =>
                    getRangeBounds_loop mathfield excludeAtomsWithBackground
                      scaleFactor atoms' (rects_set id bounds rects) st
                end
            end
        | None =>
            getRangeBounds_loop mathfield excludeAtomsWithBackground
              scaleFactor atoms' rects st
        end
  end.

Definition getRangeBounds (mathfield : Mathfield) (model : Model)
    (range : Range) (excludeAtomsWithBackground : bool) (st : Store)
    : Completion (list NRect * Store) :=
  let scaleFactor := getRangeBounds_scaleFactor mathfield in
  match getRangeBounds_loop mathfield excludeAtomsWithBackground scaleFactor
          (getAtoms model range) [] st with
  | Throw e => Throw e
  | Normal (rects, st) => Normal (rects.*2, st)
  end.

(** [ranges.reduce((acc, x) => acc.concat(...getRangeBounds(...)), [])] *)
Fixpoint getSelectionBounds_reduce (mathfield : Mathfield) (model : Model)
    (excludeAtomsWithBackground : bool) (ranges : list Range)
    (acc : list NRect) (st : Store) : Completion (list NRect * Store) :=
  match ranges with
  | [] => Normal (acc, st)
  | x :: ranges' =>
      match getRangeBounds mathfield model x excludeAtomsWithBackground st with
      | Throw e => Throw e
      | Normal (rects, st) =>
          getSelectionBounds_reduce mathfield model excludeAtomsWithBackground
            ranges' (acc ++ rects) st
      end
  end.

Definition getSelectionBounds (mathfield : Mathfield) (model : Model)
    (excludeAtomsWithBackground : bool) (st : Store)
    : Completion (list NRect * Store) :=
  getSelectionBounds_reduce mathfield model excludeAtomsWithBackground
    (selection_ranges model) [] st.

(** ** Reference definitions for the other functions *)

(** The descendants of an element in document order, the element itself
    excluded. *)
Fixpoint descendants (e : Element) : list Element :=
  flat_map (λ c, c :: descendants c) (el_children e).

(** The box [getNodeBounds] starts from: the element's own box, its top and
    right moved by one pixel and its right by the right margin. *)
Definition ownBounds (node : Element) : Rect :=
  {| top := (top (el_bounds node) - 1)%Q;
     bottom := bottom (el_bounds node);
     left := left (el_bounds node);
     right := (right (el_bounds node) - 1 + inject_Z (el_marginRight node))%Q |}.

(** The children [getNodeBounds] looks at: tagged with an atom id and not a
    strut. *)
Definition isAtomChild (child : Element) : bool :=
  bool_decide (is_Some (el_atomId child))
  && negb (classList_contains "ML__pstrut" child).

Definition isSVG (node : Element) : bool :=
  String.eqb (JSString.toUpperCase (el_tagName node)) "SVG".

Definition caretPointOf (caret : Element) : CaretPoint :=
  {| caret_x := right (el_bounds caret);
     caret_y := bottom (el_bounds caret);
     caret_height := (bottom (el_bounds caret) - top (el_bounds caret))%Q |}.

Definition isCaret (e : Element) : bool :=
  classList_contains "ML__caret" e
  || classList_contains "ML__text-caret" e
  || classList_contains "ML__latex-caret" e.

(** The element and the elements it is positioned in, innermost first. *)
Fixpoint offsetChain (el : HTMLElement) : list HTMLElement :=
  el :: match html_offsetParent el with
        | Some p => offsetChain p
        | None => []
        end.

Definition sumZ (l : list Z) : Z := foldr Z.add 0 l.

(** [\htmlId] and [\cssId] are the commands that assign an id. *)
Definition isIdCommand (a : Atom) : bool :=
  String.eqb (command a) "\htmlId" || String.eqb (command a) "\cssId".

(** The string first arguments of the id-assigning commands on the chain of
    an atom, the nearest first. *)
Definition idArgs (a : Atom) : list string :=
  omap (λ c, if isIdCommand c then firstStringArg c else None) (chain a).

(** The id these arguments give: the first that is not empty, or else the
    last of them. *)
Definition elementId (ids : list string) : option string :=
  match List.find JSString.nonEmpty ids with
  | Some s => Some s
  | None => last ids
  end.

Definition notChar (c : ascii) (d : ascii) : bool := negb (Ascii.eqb d c).

(** An atom inside [\htmlId{}] inside [\cssId{outer}]. *)
Definition atom_id_outer : Atom :=
  mkAtom (Some "o") None None "\cssId" (Some [ArgString "outer"; ArgAtoms])
    (mkStyle None) 0 "math".

Definition atom_id_inner : Atom :=
  mkAtom (Some "i") (Some atom_id_outer) (Some (BranchName "body"))
    "\htmlId" (Some [ArgString ""; ArgAtoms]) (mkStyle None) 1 "math".

Definition atom_id_leaf : Atom :=
  mkAtom (Some "x") (Some atom_id_inner) (Some (BranchName "body"))
    "x" None (mkStyle None) 2 "math".

(** *** Reference definitions for the range bounds aggregator *)

(** Whether [getRangeBounds] skips the atom. *)
Definition isExcluded (excludeAtomsWithBackground : bool) (atom : Atom) : bool :=
  excludeAtomsWithBackground && truthy (backgroundColor (style atom)).

(** The branch key and the adjusted bounds an atom brings to the
    aggregation, with its bounds as resolved in the store [st0]. *)
Definition contribution (mf : Mathfield) (scaleFactor : number) (st0 : Store)
    (atom : Atom) : option (string * NRect) :=
  match adjustForScrolling_number mf (atomBoundsValue mf atom st0) scaleFactor,
        branchId atom with
  | Some bounds, Normal id => Some (id, bounds)
  | _, _ => None
  end.

Definition contributions (mf : Mathfield) (excludeAtomsWithBackground : bool)
    (scaleFactor : number) (st0 : Store) (atoms : list Atom)
    : list (string * NRect) :=
  omap (λ a, if isExcluded excludeAtomsWithBackground a then None
             else contribution mf scaleFactor st0 a) atoms.

(** One more rectangle in the map of [getRangeBounds]. *)
Definition group_add (rects : list (string * NRect)) (kv : string * NRect)
    : list (string * NRect) :=
  match rects_get kv.1 rects with
  | Some r => rects_set kv.1 (NRect_union r kv.2) rects
  | None => rects_set kv.1 kv.2 rects
  end.

(** The keys of a list in the order of their first appearance. *)
Definition firstKeys (ks : list string) : list string :=
  fold_left (λ acc k, if bool_decide (k ∈ acc) then acc else acc ++ [k]) ks [].

(** The union of a list of rectangles, in their order; none for no
    rectangle. *)
Definition unionOf (vs : list NRect) : option NRect :=
  match vs with
  | [] => None
  | v :: vs' => Some (fold_left NRect_union vs' v)
  end.

(** The rectangles of key [k] in a list of contributions. *)
Definition valuesOf (k : string) (kvs : list (string * NRect)) : list NRect :=
  omap (λ kv, if bool_decide (kv.1 = k) then Some kv.2 else None) kvs.

(** Every atom that has a parent has a parent branch. *)
Definition branches_present (atoms : list Atom) : Prop :=
  ∀ a, a ∈ atoms → is_Some (parent a) → is_Some (parentBranch a).

(** The rectangles of one range, with the bounds resolved in [st0]. *)
Definition rangeRects (mf : Mathfield) (model : Model)
    (excludeAtomsWithBackground : bool) (st0 : Store) (range : Range)
    : list NRect :=
  (fold_left group_add
     (contributions mf excludeAtomsWithBackground
        (getRangeBounds_scaleFactor mf) st0 (getAtoms model range)) []).*2.

Definition noBackground (atom : Atom) : bool :=
  negb (truthy (backgroundColor (style atom))).

(** The atoms ["a"] and ["b"] above and below the atom ["p"], and a model
    whose selection holds the same range twice. *)
Definition atom_above : Atom :=
  mkAtom (Some "a") (Some atom_root) (Some (BranchName "above")) "a" None
    (mkStyle None) 1 "math".

Definition atom_below : Atom :=
  mkAtom (Some "b") (Some atom_root) (Some (BranchName "below")) "b" None
    (mkStyle (Some "yellow")) 1 "math".

Definition model_ab : Model :=
  mkModel (λ _, [atom_above; atom_below; atom_above]) [(0, 1); (0, 1)].

(** A rectangle all of whose sides are finite. *)
Definition NRect_finite (r : NRect) : Prop := ∃ q, r = NRect_of q.

(** ** [adjustForScrolling] in the arithmetic of the source

    The source computes on IEEE 754 binary64 numbers, where every operation
    rounds and adds the infinities and [NaN].  [adjustForScrolling_on] is
    the function of lines 61-76 over any numbers with their subtraction,
    addition, multiplication and [Math.ceil]: over the [binary64] numbers
    of the source, and over exact rationals, which is [adjustForScrolling]
    above. *)

Class Arithmetic (N : Type) : Type := {
  num_add : N → N → N;
  num_sub : N → N → N;
  num_mul : N → N → N;
  num_ceil : N → N }.

Record RectOf (N : Type) : Type := mkRectOf {
  top_of : N; bottom_of : N; left_of : N; right_of : N }.

Arguments mkRectOf {N} _ _ _ _.
Arguments top_of {N} _.
Arguments bottom_of {N} _.
Arguments left_of {N} _.
Arguments right_of {N} _.

(** What [adjustForScrolling] reads of the mathfield:
    [mathfield.field.getBoundingClientRect()] and
    [mathfield.field.scrollLeft]. *)
Record FieldOf (N : Type) : Type := mkFieldOf {
  fieldRect_of : RectOf N;
  scrollLeft_of : N }.

Arguments mkFieldOf {N} _ _.
Arguments fieldRect_of {N} _.
Arguments scrollLeft_of {N} _.

Definition adjustForScrolling_on {N : Type} `{Arithmetic N}
    (mathfield : FieldOf N) (rect : option (RectOf N)) (scaleFactor : N)
    : option (RectOf N) :=
  match rect with
  | None => None
  | Some rect =>
      let fieldRect := fieldRect_of mathfield in
      let w := num_sub (right_of rect) (left_of rect) in
      let h := num_sub (bottom_of rect) (top_of rect) in
      let left' :=
        num_ceil
          (num_add (num_sub (left_of rect) (left_of fieldRect))
             (num_mul (scrollLeft_of mathfield) scaleFactor)) in
      let top' := num_ceil (num_sub (top_of rect) (top_of fieldRect)) in
      Some {| left_of := left'; right_of := num_add left' w;
              top_of := top'; bottom_of := num_add top' h |}
  end.

(** Exact rationals. *)
#[export] Instance exact : Arithmetic Q := {
  num_add := Qplus;
  num_sub := Qminus;
  num_mul := Qmult;
  num_ceil := Math_ceil }.

Definition RectOf_exact (r : Rect) : RectOf Q :=
  mkRectOf (top r) (bottom r) (left r) (right r).

Definition FieldOf_exact (mathfield : Mathfield) : FieldOf Q :=
  mkFieldOf (RectOf_exact (el_bounds (field_element (field mathfield))))
    (scrollLeft (field mathfield)).

(** [Math.ceil] on binary64 numbers.  [NaN], the infinities and the two
    zeros are returned as they are, and so is a number of magnitude [2^52]
    or more, which is an integer.  Below [2^52], adding and subtracting
    [2^52] rounds a non-negative number to a nearest integer, which is its
    ceiling or one less (its floor or one more); the ceiling of a negative
    number is minus the floor of its opposite, [-0] included. *)
Definition two52 : float := 4503599627370496%float.

Definition binary64_ceil (x : float) : float :=
  if PrimFloat.is_nan x || PrimFloat.is_infinity x || PrimFloat.eqb x 0%float
  then x
  else if PrimFloat.leb two52 (PrimFloat.abs x) then x
  else if PrimFloat.ltb 0%float x then
    let r := PrimFloat.sub (PrimFloat.add x two52) two52 in
    if PrimFloat.ltb r x then PrimFloat.add r 1%float else r
  else
    let y := PrimFloat.opp x in
    let r := PrimFloat.sub (PrimFloat.add y two52) two52 in
    PrimFloat.opp (if PrimFloat.ltb y r then PrimFloat.sub r 1%float else r).

(** The numbers of the source: binary64, rounding to nearest, ties to
    even. *)
#[export] Instance binary64 : Arithmetic float := {
  num_add := PrimFloat.add;
  num_sub := PrimFloat.sub;
  num_mul := PrimFloat.mul;
  num_ceil := binary64_ceil }.

(** [a === b] on numbers. *)
Definition binary64_eq (a b : float) : bool := PrimFloat.eqb a b.

(** A field at the origin, not scrolled, and one scrolled by one pixel. *)
Definition field_origin : FieldOf float :=
  mkFieldOf (mkRectOf 0%float 0%float 0%float 0%float) 0%float.

Definition field_scrolled : FieldOf float :=
  mkFieldOf (mkRectOf 0%float 0%float 0%float 0%float) 1%float.

(** The rectangle from [0.1] to [0.3] across, and a unit square. *)
Definition rect_tenths : RectOf float :=
  mkRectOf 0%float 0%float 0.1%float 0.3%float.

Definition rect_unit : RectOf float :=
  mkRectOf 0%float 1%float 0%float 1%float.
(** * Properties *)

(** ** Origin validator *)

(** C1: the rules of [validateOrigin], in order: the wildcard origin or the
    validator ["none"] accept; otherwise ["same-origin"] accepts exactly when
    [window.origin] is absent or empty, or equal to [origin]; otherwise a
    predicate decides; every other validator rejects. *)
Theorem validateOrigin_rules (window_origin : option string) (origin : string)
    (v : OriginValidator) :
  (origin = "*" ∨ v = OVString "none" →
     validateOrigin window_origin origin v = true) ∧
  (origin ≠ "*" → v = OVString "same-origin" →
     (validateOrigin window_origin origin v = true ↔
        truthy window_origin = false ∨ window_origin = Some origin)) ∧
  (∀ f, origin ≠ "*" → v = OVFunction f →
     validateOrigin window_origin origin v = f origin) ∧
  (origin ≠ "*" → v ≠ OVString "none" → v ≠ OVString "same-origin" →
     (∀ f, v ≠ OVFunction f) →
     validateOrigin window_origin origin v = false).
Proof.
  unfold validateOrigin. split_and!.
  - intros [-> | ->]; [reflexivity |].
    simpl. by rewrite orb_true_r.
  - intros Hstar ->. apply String.eqb_neq in Hstar. rewrite Hstar. simpl.
    rewrite orb_true_iff, negb_true_iff, bool_decide_eq_true. intuition congruence.
  - intros f Hstar ->. apply String.eqb_neq in Hstar. by rewrite Hstar.
  - intros Hstar Hn Hs Hf. apply String.eqb_neq in Hstar. rewrite Hstar.
    destruct v as [s | f |]; simpl; [| by destruct (Hf f) | done].
    destruct (String.eqb_spec s "none") as [-> | _]; [done |].
    destruct (String.eqb_spec s "same-origin") as [-> | _]; done.
Qed.

(** The three examples of the specification. *)
Example validateOrigin_examples :
  (∀ w origin, validateOrigin w origin (OVString "none") = true) ∧
  validateOrigin (Some "https://y") "https://x" (OVString "same-origin") = false ∧
  validateOrigin (Some "https://x") "https://x" (OVString "same-origin") = true.
Proof.
  split; [| by split].
  intros w origin. unfold validateOrigin. simpl. by rewrite orb_true_r.
Qed.

(** ** Scroll/scale adjuster *)

(** C5, as stated, fails on the numbers of the source.  With the field at
    the origin and the scale [1], the rectangle from [0.1] to [0.3] across
    has the width [0.19999999999999998]; the result goes from [1] to [1.2],
    whose difference is [0.19999999999999996].  With the field scrolled by
    one pixel and the scale [Infinity], which [getRangeBounds] passes for a
    field whose [offsetWidth] is zero, the result goes from [Infinity] to
    [Infinity], whose difference is [NaN]. *)
Lemma adjustForScrolling_width_not_preserved :
  (∃ r',
     adjustForScrolling_on field_origin (Some rect_tenths) 1%float = Some r' ∧
     left_of r' = 1%float ∧ right_of r' = 1.2%float ∧
     num_sub (right_of rect_tenths) (left_of rect_tenths)
     = 0.19999999999999998%float ∧
     num_sub (right_of r') (left_of r') = 0.19999999999999996%float ∧
     binary64_eq (num_sub (right_of r') (left_of r'))
       (num_sub (right_of rect_tenths) (left_of rect_tenths)) = false) ∧
  (∃ r',
     adjustForScrolling_on field_scrolled (Some rect_unit) infinity = Some r' ∧
     left_of r' = infinity ∧ right_of r' = infinity ∧
     PrimFloat.is_nan (num_sub (right_of r') (left_of r')) = true ∧
     binary64_eq (num_sub (right_of r') (left_of r'))
       (num_sub (right_of rect_unit) (left_of rect_unit)) = false) ∧
  ¬ (∀ (mathfield : FieldOf float) (rect r' : RectOf float) (s : float),
       adjustForScrolling_on mathfield (Some rect) s = Some r' →
       binary64_eq (num_sub (right_of r') (left_of r'))
         (num_sub (right_of rect) (left_of rect)) = true).
Proof.
  split_and!.
  - eexists. split; [reflexivity |]. by vm_compute.
  - eexists. split; [reflexivity |]. by vm_compute.
  - intros H.
    specialize (H field_origin rect_tenths _ 1%float eq_refl).
    vm_compute in H. discriminate H.
Qed.

(** C5, amended: [adjustForScrolling] maps [null] to [null]; otherwise, in
    whatever arithmetic it runs, the result has
    [left' = ceil(left - field.left + field.scrollLeft * s)],
    [top' = ceil(top - field.top)], [right' = left' + (right - left)] and
    [bottom' = top' + (bottom - top)].  In exact arithmetic, where it is
    [adjustForScrolling] on rationals, the width and the height of the
    result are those of the given rectangle. *)
Theorem adjustForScrolling_sides :
  (∀ (N : Type) (A : Arithmetic N) (mathfield : FieldOf N) (s : N),
     adjustForScrolling_on mathfield None s = None ∧
     ∀ rect : RectOf N, ∃ r' : RectOf N,
       adjustForScrolling_on mathfield (Some rect) s = Some r' ∧
       left_of r'
       = num_ceil (num_add (num_sub (left_of rect)
                              (left_of (fieldRect_of mathfield)))
                     (num_mul (scrollLeft_of mathfield) s)) ∧
       top_of r'
       = num_ceil (num_sub (top_of rect) (top_of (fieldRect_of mathfield))) ∧
       right_of r'
       = num_add (left_of r') (num_sub (right_of rect) (left_of rect)) ∧
       bottom_of r'
       = num_add (top_of r') (num_sub (bottom_of rect) (top_of rect))) ∧
  (∀ (mathfield : Mathfield) (s : Q),
     adjustForScrolling mathfield None s = None ∧
     ∀ rect : Rect, ∃ r' : Rect,
       adjustForScrolling mathfield (Some rect) s = Some r' ∧
       adjustForScrolling_on (FieldOf_exact mathfield)
         (Some (RectOf_exact rect)) s
       = Some (RectOf_exact r') ∧
       (right r' - left r' == right rect - left rect)%Q ∧
       (bottom r' - top r' == bottom rect - top rect)%Q).
Proof.
  split.
  - intros N A mathfield s. split; [reflexivity |].
    intros rect. eexists. split; [reflexivity |]. by split_and!.
  - intros mathfield s. split; [reflexivity |].
    intros rect. eexists. split; [reflexivity |]. split; [reflexivity |].
    simpl. split; ring.
Qed.

(** ** Scale factor *)

(** C6: the scale factor is [floor(width) / offsetWidth] of the field, and
    [1] whenever that quotient is [NaN], which is the case exactly when both
    operands are zero; it is never [NaN]. *)
Theorem getRangeBounds_scaleFactor_spec (mathfield : Mathfield) :
  let fieldRect := el_bounds (field_element (field mathfield)) in
  let actualWidth := Math_floor (right fieldRect - left fieldRect)%Q in
  let layoutWidth := offsetWidth (field mathfield) in
  let quotient := js_div actualWidth layoutWidth in
  (isNaN quotient = false → getRangeBounds_scaleFactor mathfield = quotient) ∧
  (isNaN quotient = true → getRangeBounds_scaleFactor mathfield = Num 1) ∧
  (isNaN quotient = true ↔ actualWidth = 0 ∧ layoutWidth = 0) ∧
  (actualWidth = 0 → layoutWidth = 0 →
     getRangeBounds_scaleFactor mathfield = Num 1) ∧
  (layoutWidth ≠ 0 →
     getRangeBounds_scaleFactor mathfield
     = Num (inject_Z actualWidth / inject_Z layoutWidth)%Q) ∧
  isNaN (getRangeBounds_scaleFactor mathfield) = false.
Proof.
  intros fieldRect actualWidth layoutWidth quotient.
  unfold getRangeBounds_scaleFactor.
  fold fieldRect. fold actualWidth. fold layoutWidth. fold quotient.
  assert (Hnan : isNaN quotient = true ↔ actualWidth = 0 ∧ layoutWidth = 0).
  { unfold quotient, js_div.
    destruct (Z.eqb_spec layoutWidth 0) as [Hl | Hl];
      [destruct (Z.eqb_spec actualWidth 0) as [Ha | Ha] |]; simpl;
      intuition congruence. }
  split_and!.
  - by intros ->.
  - by intros ->.
  - apply Hnan.
  - intros Ha Hl. destruct Hnan as [_ Hn]. by rewrite Hn.
  - intros Hl. unfold quotient, js_div.
    by destruct (Z.eqb_spec layoutWidth 0).
  - destruct (isNaN quotient) eqn:E; [reflexivity | exact E].
Qed.

(** The example of the specification: a field of actual width [0] and layout
    width [0]. *)
Example getRangeBounds_scaleFactor_zero :
  getRangeBounds_scaleFactor
    (mkMathfield
       (mkField (mkElement zeroRect 0 "SPAN" None [] []) 0 0)
       (fun _ => None))
  = Num 1.
Proof. reflexivity. Qed.

(** ** Branch key *)

(** C10, as stated, fails: the key of an atom in the branch ["body"] of the
    atom ["p"] is ["p-body"], not the plain concatenation ["pbody"], and the
    key of the cell [2, 5] is ["p-2/2"], not ["p2/2"]. *)
Lemma branchId_not_plain_concatenation :
  branchId atom_body = Normal "p-body" ∧
  branchId atom_body ≠ Normal ("p" +:+ "body") ∧
  branchId atom_cell = Normal "p-2/2" ∧
  branchId atom_cell ≠ Normal ("p" +:+ "2" +:+ "/" +:+ "2") ∧
  ¬ (∀ atom p b, parent atom = Some p →
       parentBranch atom = Some (BranchName b) →
       branchId atom = Normal (default "" (atom_id p) +:+ b)).
Proof.
  split_and!; try reflexivity; try discriminate.
  intros H. specialize (H atom_body atom_root "body" eq_refl eq_refl).
  discriminate H.
Qed.

(** C10, amended: the key is ["root"] for an atom without parent; otherwise
    it is the parent's identifier (the empty string when it has none), a
    hyphen, and then the branch name, or, for a [row, col] branch, the row
    written twice around a slash. *)
Theorem branchId_spec (atom : Atom) :
  (parent atom = None → branchId atom = Normal "root") ∧
  (∀ p b, parent atom = Some p → parentBranch atom = Some (BranchName b) →
     branchId atom = Normal (default "" (atom_id p) +:+ "-" +:+ b)) ∧
  (∀ p row col, parent atom = Some p →
     parentBranch atom = Some (BranchCell row col) →
     branchId atom
     = Normal (default "" (atom_id p) +:+ "-" +:+ pretty row +:+ "/" +:+ pretty row)).
Proof.
  unfold branchId. split_and!.
  - by intros ->.
  - by intros p b -> ->.
  - by intros p row col -> ->.
Qed.

(** ** Hyperlink lookup *)

(** C4: [getHref] on an atom whose command is [\href] and whose argument
    list is absent throws, where the specification says that no operation
    of the layer does. *)
Lemma getHref_throws_without_args :
  getHref (mathfield_of [atom_href_noargs]) 0 = Throw TypeError.
Proof. reflexivity. Qed.

(** C9: with an [\href] atom without argument list between the atom and an
    enclosing [\href] atom whose first argument is the string ["https://a"],
    [getHref] throws instead of continuing upward and returning that
    string. *)
Lemma getHref_does_not_continue_past_missing_args :
  getHref (mathfield_of [atom_leaf]) 0 = Throw TypeError ∧
  getHref (mathfield_of [atom_href_outer]) 0 = Normal "https://a" ∧
  chain atom_leaf = [atom_leaf; atom_href_inner_noargs; atom_href_outer].
Proof. by split_and!. Qed.

(** ** Bounds cache lookup *)

Lemma deref_alloc (h : list Rect) (v : Rect) : deref (h ++ [v]) (length h) = v.
Proof. unfold deref. by rewrite list_lookup_middle. Qed.

Lemma deref_app (h : list Rect) (v : Rect) (l : loc) :
  (l < length h)%nat → deref (h ++ [v]) l = deref h l.
Proof. intros Hl. unfold deref. by rewrite lookup_app_l. Qed.

(** C2, as stated, fails for a mathfield without bounds cache: the node of
    the atom is found and its bounds are returned, but nothing is stored. *)
Lemma getAtomBounds_without_cache_stores_nothing :
  getAtomBounds mathfield_ab atom_a store_nocache
  = (Some 0%nat, mkStore [getNodeBounds node_a] None ["a"]) ∧
  cache_get "a" (getAtomBounds mathfield_ab atom_a store_nocache).2 = None ∧
  ¬ (∀ mathfield atom st id node,
       atom_id atom = Some id → truthy (Some id) = true →
       cache_get id st = None →
       querySelectorAtomId id (field_element (field mathfield)) = Some node →
       ∃ r, (getAtomBounds mathfield atom st).1 = Some r ∧
            cache_get id (getAtomBounds mathfield atom st).2 = Some r).
Proof.
  split_and!; try reflexivity.
  intros H.
  destruct (H mathfield_ab atom_a store_nocache "a" node_a
              eq_refl eq_refl eq_refl eq_refl) as (r & _ & Hr).
  discriminate Hr.
Qed.

(** C2, amended: [getAtomBounds] returns [null] for an atom without
    identifier; on a cache hit it returns the cached rectangle and leaves
    the store, the log of DOM queries included, as it is; otherwise it
    queries the DOM once and, when the node is found, returns a new
    rectangle holding the node bounds, stored in the cache when the
    mathfield has one; when the node is not found it returns [null] and
    deletes the entry from the cache when the mathfield has one. *)
Theorem getAtomBounds_spec (mathfield : Mathfield) (atom : Atom) (st : Store) :
  (truthy (atom_id atom) = false →
     getAtomBounds mathfield atom st = (None, st)) ∧
  (∀ id, atom_id atom = Some id → truthy (Some id) = true →
     (∀ r, cache_get id st = Some r →
        getAtomBounds mathfield atom st = (Some r, st)) ∧
     (cache_get id st = None →
        (∀ node,
           querySelectorAtomId id (field_element (field mathfield)) = Some node →
           let r := length (heap st) in
           let st' := (getAtomBounds mathfield atom st).2 in
           getAtomBounds mathfield atom st
           = (Some r, mkStore (heap st ++ [getNodeBounds node])
                        (insert id r <$> atomBoundsCache st)
                        (domQueries st ++ [id])) ∧
           deref (heap st') r = getNodeBounds node ∧
           (∀ c, atomBoundsCache st = Some c →
              atomBoundsCache st' = Some (<[id := r]> c) ∧
              cache_get id st' = Some r) ∧
           (atomBoundsCache st = None → atomBoundsCache st' = None)) ∧
        (querySelectorAtomId id (field_element (field mathfield)) = None →
           getAtomBounds mathfield atom st
           = (None, mkStore (heap st) (delete id <$> atomBoundsCache st)
                      (domQueries st ++ [id]))))).
Proof.
  unfold getAtomBounds. split.
  - by intros ->.
  - intros id Hid Ht. rewrite Hid, Ht. simpl. split.
    + by intros r ->.
    + intros ->. split.
      * intros node ->. simpl. split_and!.
        -- reflexivity.
        -- apply deref_alloc.
        -- intros c ->. simpl. unfold cache_get. simpl.
           by rewrite lookup_insert_eq.
        -- by intros ->.
      * by intros ->.
Qed.

(** ** Whole-range bounding box *)

Lemma Math_min_l (a b : Q) : (a <= b)%Q → Math_min a b = a.
Proof.
  intros H. unfold Math_min, Qmin, GenericMinMax.gmin.
  destruct (Qcompare a b) eqn:E; try reflexivity.
  apply Qgt_alt in E. exfalso. by apply (Qlt_not_le _ _ E).
Qed.

Lemma Math_max_l (a b : Q) : (b <= a)%Q → Math_max a b = a.
Proof.
  intros H. unfold Math_max, Qmax, GenericMinMax.gmax.
  destruct (Qcompare a b) eqn:E; try reflexivity.
  apply Qlt_alt in E. exfalso. by apply (Qlt_not_le _ _ E).
Qed.

Lemma Math_min_cases (a b : Q) : Math_min a b = a ∨ Math_min a b = b.
Proof.
  unfold Math_min, Qmin, GenericMinMax.gmin. destruct (Qcompare a b); auto.
Qed.

Lemma Math_max_cases (a b : Q) : Math_max a b = a ∨ Math_max a b = b.
Proof.
  unfold Math_max, Qmax, GenericMinMax.gmax. destruct (Qcompare a b); auto.
Qed.

Lemma encloses_refl (u : Rect) : encloses u u.
Proof. unfold encloses. split_and!; apply Qle_refl. Qed.

Lemma encloses_union_l (u w v : Rect) : encloses u v → encloses (rect_union u w) v.
Proof.
  unfold encloses, rect_union, Math_min, Math_max. simpl.
  intros (Ht & Hb & Hl & Hr). split_and!.
  - eapply Qle_trans; [apply Q.le_min_l | done].
  - eapply Qle_trans; [done | apply Q.le_max_l].
  - eapply Qle_trans; [apply Q.le_min_l | done].
  - eapply Qle_trans; [done | apply Q.le_max_l].
Qed.

Lemma encloses_union_r (u w : Rect) : encloses (rect_union u w) w.
Proof.
  unfold encloses, rect_union, Math_min, Math_max. simpl. split_and!.
  - apply Q.le_min_r.
  - apply Q.le_max_r.
  - apply Q.le_min_r.
  - apply Q.le_max_r.
Qed.

Lemma rect_union_absorb (u v : Rect) : encloses u v → rect_union u v = u.
Proof.
  intros (Ht & Hb & Hl & Hr). unfold rect_union.
  rewrite !Math_min_l, !Math_max_l by done. by destruct u.
Qed.

Lemma rect_union_idem (u : Rect) : rect_union u u = u.
Proof. apply rect_union_absorb, encloses_refl. Qed.

(** The heap under [alloc], [update] and [extend]. *)

Lemma deref_alter_eq (h : list Rect) (f : Rect → Rect) (r : loc) :
  (r < length h)%nat → deref (alter f r h) r = f (deref h r).
Proof.
  intros Hr. unfold deref. rewrite list_lookup_alter_eq.
  destruct (lookup_lt_is_Some_2 h r Hr) as [v Hv]. by rewrite Hv.
Qed.

Lemma deref_alter_ne (h : list Rect) (f : Rect → Rect) (r l : loc) :
  r ≠ l → deref (alter f r h) l = deref h l.
Proof. intros Hne. unfold deref. by rewrite list_lookup_alter_ne. Qed.

Lemma extend_heap_length (r b : loc) (st : Store) :
  length (heap (extend r b st)) = length (heap st).
Proof. unfold extend, update. simpl. by rewrite !length_alter. Qed.

Lemma extend_cache (r b : loc) (st : Store) :
  atomBoundsCache (extend r b st) = atomBoundsCache st.
Proof. reflexivity. Qed.

Lemma extend_queries (r b : loc) (st : Store) :
  domQueries (extend r b st) = domQueries st.
Proof. reflexivity. Qed.

Lemma extend_deref_ne (r b l : loc) (st : Store) :
  r ≠ l → deref (heap (extend r b st)) l = deref (heap st) l.
Proof. intros Hne. unfold extend, update. simpl. by rewrite !deref_alter_ne. Qed.

Lemma extend_deref_eq (r b : loc) (st : Store) :
  (r < length (heap st))%nat →
  deref (heap (extend r b st)) r
  = rect_union (deref (heap st) r) (deref (heap st) b).
Proof.
  intros Hr. unfold extend, update. simpl.
  destruct (decide (r = b)) as [<- | Hne].
  - rewrite !deref_alter_eq by (rewrite ?length_alter; done).
    by destruct (deref (heap st) r).
  - rewrite !deref_alter_eq by (rewrite ?length_alter; done).
    rewrite !deref_alter_ne by done.
    by destruct (deref (heap st) r).
Qed.

(** The cache under the store operations. *)

Lemma cache_get_cache_set (id id' : string) (r : loc) (st : Store) :
  cache_get id' (cache_set id r st)
  = match atomBoundsCache st with
    | Some c => if decide (id = id') then Some r else c !! id'
    | None => None
    end.
Proof.
  unfold cache_get, cache_set. simpl. destruct (atomBoundsCache st); simpl.
  - by rewrite lookup_insert.
  - reflexivity.
Qed.

Lemma cache_get_cache_delete_miss (id id' : string) (st : Store) :
  cache_get id st = None →
  cache_get id' (cache_delete id st) = cache_get id' st.
Proof.
  unfold cache_get, cache_delete. simpl. destruct (atomBoundsCache st); simpl.
  - intros Hid. rewrite lookup_delete. case_decide; congruence.
  - done.
Qed.

Lemma truthy_Some (o : option string) :
  truthy o = true → ∃ id, o = Some id.
Proof. destruct o; [eauto | discriminate]. Qed.

Lemma atomBoundsValue_falsy (mf : Mathfield) (a : Atom) (st : Store) :
  truthy (atom_id a) = false → atomBoundsValue mf a st = None.
Proof. intros H. unfold atomBoundsValue, getAtomBounds. by rewrite H. Qed.

Lemma atomBoundsValue_resolved (mf : Mathfield) (a : Atom) (st : Store) (id : string) :
  atom_id a = Some id → truthy (Some id) = true →
  atomBoundsValue mf a st = resolved mf st id.
Proof.
  intros Hid Ht. unfold atomBoundsValue, getAtomBounds, resolved.
  rewrite Hid, Ht. simpl.
  destruct (cache_get id st); [reflexivity |].
  destruct (querySelectorAtomId _ _); [| reflexivity].
  simpl. by rewrite deref_alloc.
Qed.

(** The loop invariant holds initially and is kept by each step. *)

Lemma loop_inv_init (mf : Mathfield) (st : Store) :
  store_wf st → loop_inv mf st None st.
Proof.
  intros Hwf. split; [done | done | | done].
  intros id l Hl. exists (deref (heap st) l). split.
  - unfold resolved. by rewrite Hl.
  - by case_decide.
Qed.

Lemma loop_inv_start (mf : Mathfield) (st0 st : Store) (l : loc) :
  loop_inv mf st0 None st → (l < length (heap st))%nat →
  loop_inv mf st0 (Some l) st.
Proof.
  intros [Hwf _ Hhit Hmiss] Hl. split; [done | | | done].
  - by intros r [= <-].
  - intros id l' Hl'. destruct (Hhit id l' Hl') as (v0 & Hv0 & Hd).
    exists v0. split; [done |].
    rewrite decide_False in Hd by done.
    case_decide; [| done]. rewrite Hd. apply encloses_refl.
Qed.

Lemma loop_inv_extend (mf : Mathfield) (st0 st : Store) (r b : loc) :
  loop_inv mf st0 (Some r) st → loop_inv mf st0 (Some r) (extend r b st).
Proof.
  intros [Hwf Hres Hhit Hmiss]. split.
  - intros id l. unfold cache_get. rewrite extend_cache, extend_heap_length.
    apply Hwf.
  - intros r' Hr'. rewrite extend_heap_length. by apply Hres.
  - intros id l Hl. destruct (Hhit id l Hl) as (v0 & Hv0 & Hd).
    exists v0. split; [done |].
    case_decide as Hdec.
    + injection Hdec as <-. rewrite extend_deref_eq by (by apply Hres).
      by apply encloses_union_l.
    + rewrite extend_deref_ne; [done | congruence].
  - done.
Qed.

Lemma getAtomBounds_step (mf : Mathfield) (st0 : Store) (res : option loc)
    (st : Store) (a : Atom) :
  loop_inv mf st0 res st →
  ∃ b st1, getAtomBounds mf a st = (b, st1) ∧
    loop_inv mf st0 res st1 ∧
    (∀ l, (l < length (heap st))%nat → deref (heap st1) l = deref (heap st) l) ∧
    match b with
    | None => atomBoundsValue mf a st0 = None
    | Some l =>
        (l < length (heap st1))%nat ∧
        ∃ v0, atomBoundsValue mf a st0 = Some v0 ∧
          if decide (res = Some l) then encloses (deref (heap st1) l) v0
          else deref (heap st1) l = v0
    end.
Proof.
  intros Hinv. pose proof Hinv as [Hwf Hres Hhit Hmiss].
  destruct (truthy (atom_id a)) eqn:Ht.
  2:{ exists None, st. unfold getAtomBounds. rewrite Ht. simpl.
      split_and!; try done. by apply atomBoundsValue_falsy. }
  destruct (truthy_Some _ Ht) as [id Hid].
  rewrite (atomBoundsValue_resolved mf a st0 id) by (by rewrite <- ?Hid).
  unfold getAtomBounds. rewrite Ht, Hid. simpl.
  destruct (cache_get id st) as [l |] eqn:Hget.
  - exists (Some l), st. split_and!; try done.
    + by eapply Hwf.
    + by apply Hhit.
  - pose proof (Hmiss id Hget) as Hget0.
    unfold resolved. rewrite Hget0.
    destruct (querySelectorAtomId id (field_element (field mf))) as [node |]
      eqn:Hq; simpl.
    + eexists _, _. split; [reflexivity |]. split_and!.
      * split.
        -- intros id' l'. rewrite cache_get_cache_set. simpl.
           rewrite length_app. simpl.
           destruct (atomBoundsCache st) as [c |] eqn:Hc; [| done].
           case_decide.
           ++ intros [= <-]. lia.
           ++ intros Hl'. assert (l' < length (heap st))%nat; [| lia].
              apply (Hwf id'). unfold cache_get. by rewrite Hc.
        -- intros r Hr. simpl. rewrite length_app. simpl.
           specialize (Hres r Hr). lia.
        -- intros id' l'. rewrite cache_get_cache_set. simpl.
           destruct (atomBoundsCache st) as [c |] eqn:Hc; [| done].
           case_decide as Hid'.
           ++ intros [= <-]. subst id'. exists (getNodeBounds node).
              unfold resolved. rewrite Hget0, Hq. split; [done |].
              case_decide as Hdec.
              ** specialize (Hres _ Hdec). lia.
              ** apply deref_alloc.
           ++ intros Hl'.
              assert (Hg : cache_get id' st = Some l')
                by (unfold cache_get; by rewrite Hc).
              destruct (Hhit id' l' Hg) as (v0 & Hv0 & Hd).
              exists v0. split; [done |].
              rewrite deref_app by (by eapply Hwf). done.
        -- intros id'. rewrite cache_get_cache_set. simpl.
           destruct (atomBoundsCache st) as [c |] eqn:Hc.
           ++ case_decide; [done |]. intros Hn. apply Hmiss.
              unfold cache_get. by rewrite Hc.
           ++ intros _. apply Hmiss. unfold cache_get. by rewrite Hc.
      * intros l Hl. simpl. by apply deref_app.
      * simpl. rewrite length_app. simpl. lia.
      * exists (getNodeBounds node). split; [done |]. simpl.
        case_decide as Hdec.
        -- specialize (Hres _ Hdec). lia.
        -- apply deref_alloc.
    + eexists _, _. split; [reflexivity |]. split_and!; try done.
      split; simpl.
      * intros id' l'. rewrite cache_get_cache_delete_miss by done. apply Hwf.
      * done.
      * intros id' l'. rewrite cache_get_cache_delete_miss by done.
        apply Hhit.
      * intros id'. rewrite cache_get_cache_delete_miss by done. apply Hmiss.
Qed.

#[local] Arguments extend : simpl never.

Lemma elem_of_indices (j i : Z) (n : nat) :
  j ∈ indices i n → i ≤ j < i + Z.of_nat n.
Proof.
  revert i. induction n as [| n IH]; intros i; simpl.
  - by intros ?%elem_of_nil.
  - intros [-> | Hj%IH]%elem_of_cons; lia.
Qed.

Lemma getRangeBoundingRect_loop_spec (mf : Mathfield) (st0 : Store) (n : nat) :
  ∀ (i : Z) (res : option loc) (st : Store),
    loop_inv mf st0 res st →
    (∀ j, j ∈ indices i n → is_Some (model_at mf j)) →
    ∃ res' st',
      getRangeBoundingRect_loop mf n i res st = Normal (res', st') ∧
      deref (heap st') <$> res'
      = fold_left accumulate
          (omap (λ a, atomBoundsValue mf a st0) (omap (model_at mf) (indices i n)))
          (deref (heap st) <$> res).
Proof.
  induction n as [| n IH]; intros i res st Hinv Hat; simpl.
  - by eexists _, _.
  - destruct (Hat i) as [a Ha]; [by left |]. rewrite Ha. simpl.
    destruct (getAtomBounds_step mf st0 res st a Hinv)
      as (b & st1 & -> & Hinv1 & Hold & Hb).
    assert (Hat' : ∀ j, j ∈ indices (i + 1) n → is_Some (model_at mf j))
      by (intros j Hj; apply Hat; by right).
    assert (Hacc : deref (heap st1) <$> res = deref (heap st) <$> res).
    { destruct res as [r |]; [| done]. simpl. f_equal. apply Hold.
      by apply (inv_result _ _ _ _ Hinv). }
    destruct b as [l |].
    + destruct Hb as (Hl & v0 & -> & Hd). simpl.
      destruct res as [r |].
      * destruct (IH (i + 1) (Some r) (extend r l st1)
                    (loop_inv_extend _ _ _ _ _ Hinv1) Hat')
          as (res' & st' & -> & Hres').
        change (deref (heap (extend r l st1)) <$> Some r)
          with (Some (deref (heap (extend r l st1)) r)) in Hres'.
        rewrite extend_deref_eq in Hres'
          by (by apply (inv_result _ _ _ _ Hinv1)).
        eexists _, _. split; [reflexivity |]. rewrite Hres'. f_equal.
        simpl. injection Hacc as Hacc. rewrite <- Hacc.
        unfold accumulate. f_equal.
        case_decide as Hdec.
        -- injection Hdec as <-.
           by rewrite rect_union_idem, rect_union_absorb.
        -- by rewrite Hd.
      * destruct (IH (i + 1) (Some l) st1 (loop_inv_start _ _ _ _ Hinv1 Hl) Hat')
          as (res' & st' & -> & Hres').
        eexists _, _. split; [reflexivity |]. rewrite Hres'. f_equal.
        simpl. rewrite decide_False in Hd by done. by rewrite Hd.
    + rewrite Hb.
      destruct (IH (i + 1) res st1 Hinv1 Hat') as (res' & st' & -> & Hres').
      eexists _, _. split; [reflexivity |]. by rewrite Hres', Hacc.
Qed.

(** The union of a list of rectangles encloses each of them, and each of
    its sides is the side of one of them. *)

Lemma fold_accumulate (bs : list Rect) (b : Rect) :
  fold_left accumulate bs (Some b) = Some (fold_left rect_union bs b).
Proof. revert b. induction bs as [| c bs IH]; intros b; simpl; [done | apply IH]. Qed.

Lemma fold_accumulate_boundingRect (bs : list Rect) :
  default zeroRect (fold_left accumulate bs None) = boundingRect bs.
Proof.
  destruct bs as [| b bs]; simpl; [done |].
  change (accumulate None b) with (Some b). by rewrite fold_accumulate.
Qed.

Lemma fold_union_encloses (bs : list Rect) (u : Rect) :
  encloses (fold_left rect_union bs u) u ∧
  ∀ b, b ∈ bs → encloses (fold_left rect_union bs u) b.
Proof.
  revert u. induction bs as [| c bs IH]; intros u; simpl.
  - split; [apply encloses_refl |]. by intros b ?%elem_of_nil.
  - destruct (IH (rect_union u c)) as [Hu Hbs]. split.
    + destruct Hu as (H1 & H2 & H3 & H4).
      destruct (encloses_union_l u c u (encloses_refl u)) as (K1 & K2 & K3 & K4).
      unfold encloses. split_and!; eapply Qle_trans; done.
    + intros b [-> | Hb]%elem_of_cons; [| by apply Hbs].
      destruct Hu as (H1 & H2 & H3 & H4).
      destruct (encloses_union_r u c) as (K1 & K2 & K3 & K4).
      unfold encloses. split_and!; eapply Qle_trans; done.
Qed.

Lemma fold_union_attained (side : Rect → Q) (bs : list Rect) (u : Rect) :
  (∀ a b, side (rect_union a b) = side a ∨ side (rect_union a b) = side b) →
  ∃ b, b ∈ u :: bs ∧ side (fold_left rect_union bs u) = side b.
Proof.
  intros Hside. revert u. induction bs as [| c bs IH]; intros u; simpl.
  - exists u. split; [by left | done].
  - destruct (IH (rect_union u c)) as (b & [-> | Hb]%elem_of_cons & Heq).
    + destruct (Hside u c) as [H | H]; rewrite H in Heq.
      * exists u. split; [by left | done].
      * exists c. split; [right; by left | done].
    + exists b. split; [by do 2 right | done].
Qed.

Lemma boundingRect_encloses (bs : list Rect) (b : Rect) :
  b ∈ bs → encloses (boundingRect bs) b.
Proof.
  destruct bs as [| u bs]; simpl; [by intros ?%elem_of_nil |].
  destruct (fold_union_encloses bs u) as [Hu Hbs].
  intros [-> | Hb]%elem_of_cons; [done | by apply Hbs].
Qed.

Lemma boundingRect_attained (bs : list Rect) :
  bs ≠ [] →
  (∃ b, b ∈ bs ∧ top (boundingRect bs) = top b) ∧
  (∃ b, b ∈ bs ∧ bottom (boundingRect bs) = bottom b) ∧
  (∃ b, b ∈ bs ∧ left (boundingRect bs) = left b) ∧
  (∃ b, b ∈ bs ∧ right (boundingRect bs) = right b).
Proof.
  destruct bs as [| u bs]; [done |]. intros _. simpl.
  split_and!; apply fold_union_attained; intros a b; simpl.
  - apply Math_min_cases.
  - apply Math_max_cases.
  - apply Math_min_cases.
  - apply Math_max_cases.
Qed.

(** C7, as stated, fails: an index of the range that holds no atom makes
    [getRangeBoundingRect] throw a [TypeError] instead of returning a
    rectangle.  So it is over the range [0, 2] of an editor with two atoms,
    both with cached bounds, and over the range [0, 0] of an editor without
    atoms, where no atom has resolvable bounds. *)
Lemma getRangeBoundingRect_throws_past_atoms :
  model_at mathfield_ab 2 = None ∧
  getRangeBoundingRect mathfield_ab (0, 2) store_cached = Throw TypeError ∧
  getRangeBoundingRect (mathfield_of []) (0, 0) store_nocache
  = Throw TypeError ∧
  ¬ (∀ mf start end_ st, ∃ r st',
       getRangeBoundingRect mf (start, end_) st = Normal (r, st')).
Proof.
  split_and!; try reflexivity.
  intros H. destruct (H mathfield_ab 0 2 store_cached) as (r & st' & Hrun).
  discriminate Hrun.
Qed.

(** C7, amended: over a range all of whose indices hold an atom, and in a store
    whose cache entries refer to existing rectangles,
    [getRangeBoundingRect] returns the union of the bounds that
    [getAtomBounds] resolves for the atoms at the indices [start] to [end_],
    both included: it encloses each of them, and its top and left are the
    least, its bottom and right the greatest, of theirs.  It returns the
    zero rectangle when the range is empty or no atom of it has bounds. *)
Theorem getRangeBoundingRect_spec (mf : Mathfield) (start end_ : Z) (st : Store) :
  store_wf st →
  (∀ i, start ≤ i ≤ end_ → is_Some (model_at mf i)) →
  let bounds := omap (λ a, atomBoundsValue mf a st) (rangeAtoms mf start end_) in
  ∃ r st',
    getRangeBoundingRect mf (start, end_) st = Normal (r, st') ∧
    deref (heap st') r = boundingRect bounds ∧
    (end_ < start → bounds = []) ∧
    (bounds = [] → deref (heap st') r = zeroRect) ∧
    (∀ b, b ∈ bounds → encloses (deref (heap st') r) b) ∧
    (bounds ≠ [] →
       (∃ b, b ∈ bounds ∧ top (deref (heap st') r) = top b) ∧
       (∃ b, b ∈ bounds ∧ bottom (deref (heap st') r) = bottom b) ∧
       (∃ b, b ∈ bounds ∧ left (deref (heap st') r) = left b) ∧
       (∃ b, b ∈ bounds ∧ right (deref (heap st') r) = right b)).
Proof.
  intros Hwf Hat bounds.
  assert (Hat' : ∀ j, j ∈ indices start (Z.to_nat (end_ - start + 1)) →
                      is_Some (model_at mf j)).
  { intros j Hj%elem_of_indices. apply Hat. lia. }
  destruct (getRangeBoundingRect_loop_spec mf st _ start None st
              (loop_inv_init mf st Hwf) Hat') as (res & st' & Hloop & Hres).
  fold (rangeAtoms mf start end_) in Hres. fold bounds in Hres. simpl in Hres.
  assert (Hempty : end_ < start → bounds = []).
  { intros Hlt. unfold bounds, rangeAtoms.
    replace (Z.to_nat (end_ - start + 1)) with 0%nat by lia. done. }
  assert (∃ r st'', getRangeBoundingRect mf (start, end_) st = Normal (r, st'') ∧
                    deref (heap st'') r = boundingRect bounds)
    as (r & st'' & Hrun & Hval).
  { unfold getRangeBoundingRect. rewrite Hloop.
    rewrite <- fold_accumulate_boundingRect, <- Hres.
    destruct res as [r |]; simpl.
    - by eexists _, _.
    - eexists _, _. split; [reflexivity |]. simpl. apply deref_alloc. }
  exists r, st''. rewrite Hval. split_and!; try done.
  - by intros ->.
  - apply boundingRect_encloses.
  - apply boundingRect_attained.
Qed.

Lemma store_cached_wf : store_wf store_cached.
Proof.
  intros id l. unfold cache_get, store_cached. simpl.
  intros [[_ <-] | [_ [_ <-]%lookup_singleton_Some]]%lookup_insert_Some; lia.
Qed.

Lemma mathfield_ab_atoms (i : Z) : 0 ≤ i ≤ 1 → is_Some (model_at mathfield_ab i).
Proof.
  intros Hi. assert (i = 0 ∨ i = 1) as [-> | ->] by lia; by eexists.
Qed.

(** C7 at work: both atoms are cached, the first with [0, 10, 0, 10] and the
    second with [5, 20, 5, 20]. *)
Lemma getRangeBoundingRect_spec_witness :
  store_wf store_cached ∧
  (∀ i, 0 ≤ i ≤ 1 → is_Some (model_at mathfield_ab i)) ∧
  ∃ r st',
    getRangeBoundingRect mathfield_ab (0, 1) store_cached = Normal (r, st') ∧
    deref (heap st') r = mkRect 0 20 0 20.
Proof.
  split; [exact store_cached_wf |]. split; [exact mathfield_ab_atoms |].
  destruct (getRangeBoundingRect_spec mathfield_ab 0 1 store_cached
              store_cached_wf mathfield_ab_atoms)
    as (r & st' & Hrun & Hval & _).
  exists r, st'. split; [exact Hrun |]. rewrite Hval. reflexivity.
Defined.

(** C3: [getRangeBoundingRect] writes the union into the rectangle object of
    the first atom of the range, which is the object held by the cache: with
    both atoms cached and no DOM lookup at all, the bounds of the atom ["a"]
    are [0, 10, 0, 10] before the call and [0, 20, 0, 20] after it. *)
Lemma getRangeBoundingRect_overwrites_cached_rect :
  atomBoundsValue mathfield_ab atom_a store_cached = Some (mkRect 0 10 0 10) ∧
  ∃ r st',
    getRangeBoundingRect mathfield_ab (0, 1) store_cached = Normal (r, st') ∧
    atomBoundsCache st' = atomBoundsCache store_cached ∧
    domQueries st' = [] ∧
    cache_get "a" st' = Some r ∧
    atomBoundsValue mathfield_ab atom_a st' = Some (mkRect 0 20 0 20).
Proof.
  split; [reflexivity |]. eexists _, _. split; [reflexivity |].
  by split_and!.
Qed.

(** [getAtomBounds] itself leaves every existing rectangle and every
    existing cache entry as they are. *)
Lemma getAtomBounds_frame (mf : Mathfield) (a : Atom) (st : Store) :
  store_wf st →
  let st' := (getAtomBounds mf a st).2 in
  store_wf st' ∧
  (∀ l, (l < length (heap st))%nat → deref (heap st') l = deref (heap st) l) ∧
  (∀ id l, cache_get id st = Some l →
     cache_get id st' = Some l ∧ deref (heap st') l = deref (heap st) l).
Proof.
  intros Hwf.
  destruct (getAtomBounds_step mf st None st a (loop_inv_init mf st Hwf))
    as (b & st1 & Hrun & Hinv & Hold & _).
  rewrite Hrun. simpl. split_and!.
  - apply (inv_wf _ _ _ _ Hinv).
  - exact Hold.
  - intros id l Hl. split; [| apply Hold; by eapply Hwf].
    revert Hrun. unfold getAtomBounds.
    destruct (truthy (atom_id a)); simpl; [| by intros [= _ <-]].
    destruct (cache_get (default "" (atom_id a)) st) eqn:Hget;
      [by intros [= _ <-] |].
    destruct (querySelectorAtomId _ _); simpl; intros [= _ <-].
    + rewrite cache_get_cache_set. simpl.
      unfold cache_get in Hl, Hget. destruct (atomBoundsCache st); [| done].
      case_decide; [congruence | done].
    + by rewrite cache_get_cache_delete_miss.
Qed.

Lemma getAtomBounds_frame_witness :
  store_wf store_cached ∧
  cache_get "b" (getAtomBounds mathfield_ab atom_a store_cached).2 = Some 1%nat.
Proof.
  split; [exact store_cached_wf |].
  destruct (getAtomBounds_frame mathfield_ab atom_a store_cached store_cached_wf)
    as (_ & _ & H).
  by destruct (H "b" 1%nat eq_refl) as [H1 _].
Defined.

(** ** Element info lookup *)

(** Induction along the parent back-reference. *)
Lemma Atom_parent_ind (P : Atom → Prop) :
  (∀ a, parent a = None → P a) →
  (∀ a p, parent a = Some p → P p → P a) →
  ∀ a, P a.
Proof.
  intros Hroot Hstep. fix IH 1. intros a.
  destruct a as [aid [p |] br cmd ar sty dep md].
  - apply (Hstep _ p); [reflexivity | apply IH].
  - by apply Hroot.
Qed.

Lemma chain_parent (a p : Atom) : parent a = Some p → chain a = a :: chain p.
Proof. destruct a. simpl. by intros ->. Qed.

Lemma chain_root (a : Atom) : parent a = None → chain a = [a].
Proof. destruct a. simpl. by intros ->. Qed.

Lemma htmlData_entry_token (data : option (gmap string (option string)))
    (entry : string) :
  htmlData_entry data entry
  = match htmlData_token entry with
    | Some e => data_add data e
    | None => data
    end.
Proof.
  unfold htmlData_entry, htmlData_token.
  destruct (JSString.match_keyValue entry) as [[m1 m2] |];
    by destruct (JSString.nonEmpty _).
Qed.

Lemma fold_htmlData_entry (tokens : list string)
    (data : option (gmap string (option string))) :
  fold_left htmlData_entry tokens data
  = fold_left data_add (omap htmlData_token tokens) data.
Proof.
  revert data. induction tokens as [| t ts IH]; intros data; simpl; [done |].
  rewrite htmlData_entry_token. destruct (htmlData_token t); simpl; apply IH.
Qed.

Lemma getElementInfo_walk_data (a : Atom) :
  ∀ data id,
    (getElementInfo_walk a data id).1 = fold_left data_add (chain_entries a) data.
Proof.
  induction a as [a Hroot | a p Hp IH] using Atom_parent_ind; intros data id.
  - unfold chain_entries. rewrite (chain_root a Hroot). simpl.
    rewrite app_nil_r. unfold htmlData_of, htmlData_entries.
    destruct a; simpl in *; subst; simpl.
    destruct (String.eqb _ _); [| done].
    destruct (firstStringArg _); [| done]. apply fold_htmlData_entry.
  - unfold chain_entries. rewrite (chain_parent a p Hp). simpl.
    rewrite fold_left_app. fold (chain_entries p).
    destruct a; simpl in *; subst; simpl. rewrite IH. f_equal.
    unfold htmlData_of, htmlData_entries. simpl.
    destruct (String.eqb _ _); [| done].
    destruct (firstStringArg _); [| done]. apply fold_htmlData_entry.
Qed.

Lemma data_add_lookup (data : option (gmap string (option string)))
    (k : string) (v : option string) :
  ∃ m, data_add data (k, v) = Some m ∧
    ∀ key, m !! key
           = if String.eqb key "__proto__" then default ∅ data !! key
             else if decide (k = key) then Some v
             else default ∅ data !! key.
Proof.
  unfold data_add, set_data. cbn [fst snd]. eexists. split; [reflexivity |].
  intros key.
  destruct (String.eqb_spec key "__proto__") as [Hkey | Hkey].
  - destruct (String.eqb k "__proto__") eqn:Hk; [done |].
    apply lookup_insert_ne. intros Heq. subst. by rewrite String.eqb_refl in Hk.
  - destruct (String.eqb_spec k "__proto__") as [-> | Hk].
    + by rewrite decide_False.
    + destruct (decide (k = key)) as [-> | Hne].
      * apply lookup_insert_eq.
      * by apply lookup_insert_ne.
Qed.

Lemma fold_data_add_lookup (es : list (string * option string)) :
  ∀ e data, ∃ m,
    fold_left data_add (e :: es) data = Some m ∧
    ∀ key, m !! key
           = match stored_entry key (e :: es) with
             | Some v => Some v
             | None => default ∅ data !! key
             end.
Proof.
  unfold stored_entry.
  induction es as [| e' es IH]; intros [k v] data.
  - destruct (data_add_lookup data k v) as (m & Hm & Hlook).
    exists m. split; [exact Hm |]. intros key. rewrite Hlook.
    destruct (String.eqb key "__proto__"); [done |].
    simpl. by case_decide.
  - destruct (data_add_lookup data k v) as (m0 & Hm0 & Hlook0).
    destruct (IH e' (data_add data (k, v))) as (m & Hm & Hlook).
    exists m. split; [exact Hm |]. intros key. rewrite Hlook.
    rewrite Hm0. cbn [default]. rewrite Hlook0.
    destruct (String.eqb key "__proto__"); [done |].
    change (last_entry key ((k, v) :: e' :: es))
      with (match last_entry key (e' :: es) with
            | Some r => Some r
            | None => if decide (k = key) then Some v else None
            end).
    destruct (last_entry key (e' :: es)); [done |].
    by case_decide.
Qed.

(** C8, as stated, fails: under two nested [\htmlData] commands the data are
    those of both, and for the key ["a"] the outer command wins over the
    nearest one. *)
Lemma getElementInfo_data_not_nearest :
  (getElementInfo serialize_none (Some (mathfield_of [atom_data_leaf])) 0
     store_nocache).1 ≫= info_data
  = Some {[ "a" := Some "1"; "b" := None ]} ∧
  nearest_htmlData atom_data_leaf = Some "a=2, b" ∧
  fold_left htmlData_entry (JSString.split "," "a=2, b") None
  = Some {[ "a" := Some "2"; "b" := None ]} ∧
  ¬ (∀ serialize mf offset st atom info st',
       model_at mf offset = Some atom →
       getElementInfo serialize (Some mf) offset st = (Some info, st') →
       info_data info
       = match nearest_htmlData atom with
         | Some s => fold_left htmlData_entry (JSString.split "," s) None
         | None => None
         end).
Proof.
  split_and!; try reflexivity.
  intros H.
  specialize (H serialize_none (mathfield_of [atom_data_leaf]) 0 store_nocache
                atom_data_leaf _ _ eq_refl eq_refl).
  apply (f_equal (λ d, d ≫= (.!! "a"))) in H. discriminate H.
Qed.

(** C8, amended: for an offset resolving to an atom, the data of
    [getElementInfo] are those of every [\htmlData] command on the chain
    whose first argument is a string, the atom's own first: each argument
    is split on commas into [key=value] or bare [key] tokens, keys trimmed
    and their spaces replaced by hyphens, empty keys skipped, and a key
    holds the value of its last entry, be it of the same command or of a
    command farther up the chain; the key ["__proto__"] alone is never
    held, the data being a plain object.  ["a=1, b , c=2"] gives exactly
    [a] with ["1"], [b] with [undefined] and [c] with ["2"]. *)
Theorem getElementInfo_data (serialize : Atom → string) (mf : Mathfield)
    (offset : Z) (st : Store) (atom : Atom) :
  model_at mf offset = Some atom →
  ∃ info st',
    getElementInfo serialize (Some mf) offset st = (Some info, st') ∧
    (chain_entries atom = [] → info_data info = None) ∧
    (chain_entries atom ≠ [] →
       ∃ data, info_data info = Some data ∧
         ∀ key, data !! key
                = if String.eqb key "__proto__" then None
                  else last_entry key (chain_entries atom)) ∧
    htmlData_entries "a=1, b , c=2"
    = [("a", Some "1"); ("b", None); ("c", Some "2")] ∧
    fold_left htmlData_entry (JSString.split "," "a=1, b , c=2") None
    = Some {[ "a" := Some "1"; "b" := None; "c" := Some "2" ]} ∧
    fold_left htmlData_entry (JSString.split "," "__proto__=1, a") None
    = Some {[ "a" := None ]}.
Proof.
  intros Hat. unfold getElementInfo. rewrite Hat.
  destruct (getAtomBounds mf atom st) as [bounds st1].
  pose proof (getElementInfo_walk_data atom None None) as Hdata.
  destruct (getElementInfo_walk atom None None) as [data id].
  simpl in Hdata. subst data.
  eexists _, _. split; [reflexivity |]. simpl. split_and!; try reflexivity.
  - by intros ->.
  - intros Hne. destruct (chain_entries atom) as [| e es]; [done |].
    destruct (fold_data_add_lookup es e None) as (m & -> & Hlook).
    exists m. split; [done |]. intros key. rewrite Hlook.
    unfold stored_entry. destruct (String.eqb key "__proto__").
    + apply lookup_empty.
    + destruct (last_entry key (e :: es)); [done | apply lookup_empty].
Qed.

Lemma getElementInfo_data_witness :
  model_at (mathfield_of [atom_data_leaf]) 0 = Some atom_data_leaf ∧
  ∃ info st',
    getElementInfo serialize_none (Some (mathfield_of [atom_data_leaf])) 0
      store_nocache = (Some info, st') ∧
    ∃ data, info_data info = Some data ∧ data !! "a" = Some (Some "1").
Proof.
  split; [reflexivity |].
  destruct (getElementInfo_data serialize_none (mathfield_of [atom_data_leaf])
              0 store_nocache atom_data_leaf eq_refl)
    as (info & st' & Hrun & _ & Hdata & _).
  exists info, st'. split; [exact Hrun |].
  destruct Hdata as (data & Hd & Hlook); [discriminate |].
  exists data. split; [exact Hd |]. rewrite Hlook. reflexivity.
Defined.

(** ** Hyperlink lookup, with argument lists present *)

Lemma href_args_present_parent (a p : Atom) :
  parent a = Some p → href_args_present a → href_args_present p.
Proof.
  intros Hp H c Hc. apply H. rewrite (chain_parent a p Hp). by right.
Qed.

Lemma getHref_walk_target (a : Atom) (url : string) :
  command a = "\href" → firstStringArg a = Some url →
  getHref_walk a = Normal url.
Proof.
  unfold firstStringArg. destruct a as [aid par br cmd ar sty dep md]. simpl.
  intros -> Hurl. destruct ar as [[| [s | |] l] |]; try discriminate.
  by injection Hurl as ->.
Qed.

Lemma getHref_walk_next (a : Atom) :
  (command a = "\href" → is_Some (args a)) →
  ¬ (command a = "\href" ∧ is_Some (firstStringArg a)) →
  getHref_walk a
  = match parent a with
    | Some p => getHref_walk p
    | None => Normal ""
    end.
Proof.
  unfold firstStringArg. destruct a as [aid par br cmd ar sty dep md]. simpl.
  intros Hargs Hno. destruct (String.eqb_spec cmd "\href") as [-> | Hne]; [| done].
  destruct (Hargs eq_refl) as [l ->].
  destruct l as [| [s | |] l]; try done.
  exfalso. apply Hno. by eauto.
Qed.

Lemma getHref_walk_spec (a : Atom) :
  href_args_present a →
  getHref_walk a = Normal (default "" (href_target a)).
Proof.
  induction a as [a Hroot | a p Hp IH] using Atom_parent_ind; intros Hargs.
  - assert (Ha : command a = "\href" → is_Some (args a)).
    { apply Hargs. rewrite (chain_root a Hroot). by left. }
    unfold href_target. rewrite (chain_root a Hroot).
    destruct (decide (command a = "\href" ∧ is_Some (firstStringArg a)))
      as [[Hc [url Hurl]] | Hno].
    + rewrite filter_cons_True by eauto. simpl. rewrite Hurl. simpl.
      by apply getHref_walk_target.
    + rewrite filter_cons_False by done. simpl.
      rewrite getHref_walk_next by done. by rewrite Hroot.
  - specialize (IH (href_args_present_parent a p Hp Hargs)).
    assert (Ha : command a = "\href" → is_Some (args a)).
    { apply Hargs. rewrite (chain_parent a p Hp). by left. }
    unfold href_target in *. rewrite (chain_parent a p Hp).
    destruct (decide (command a = "\href" ∧ is_Some (firstStringArg a)))
      as [[Hc [url Hurl]] | Hno].
    + rewrite filter_cons_True by eauto. simpl. rewrite Hurl. simpl.
      by apply getHref_walk_target.
    + rewrite filter_cons_False by done.
      rewrite getHref_walk_next by done. by rewrite Hp.
Qed.

(** When every [\href] atom on the chain has an argument list, [getHref]
    returns the first argument of the first atom on the chain, the atom
    itself included, whose command is [\href] and whose first argument is a
    string, and the empty string when there is none or when the offset
    resolves to no atom. *)
Theorem getHref_spec (mf : Mathfield) (offset : Z) :
  (∀ a, model_at mf offset = Some a → href_args_present a) →
  getHref mf offset
  = Normal (default "" (model_at mf offset ≫= href_target)).
Proof.
  intros Hargs. unfold getHref.
  destruct (model_at mf offset) as [a |]; simpl; [| done].
  by apply getHref_walk_spec, Hargs.
Qed.

Lemma getHref_spec_witness :
  getHref (mathfield_of [atom_href_outer]) 0 = Normal "https://a".
Proof.
  rewrite (getHref_spec (mathfield_of [atom_href_outer]) 0).
  - reflexivity.
  - intros a [= <-] c [-> | []%elem_of_nil]%elem_of_cons _. by eexists.
Defined.

(** ** The string operations on examples *)

Example split_examples :
  JSString.split "," "" = [""] ∧
  JSString.split "," "a=1, b , c=2" = ["a=1"; " b "; " c=2"] ∧
  JSString.split "," "a," = ["a"; ""].
Proof. by split_and!. Qed.

Example trim_examples :
  JSString.trim "  my key " = "my key" ∧
  JSString.trim "   " = "" ∧
  JSString.replaceSpaces "my key" = "my-key".
Proof. by split_and!. Qed.

Example match_keyValue_examples :
  JSString.match_keyValue "a=1" = Some ("a", "1") ∧
  JSString.match_keyValue " b " = None ∧
  JSString.match_keyValue "a=b=c" = Some ("a", "b=c") ∧
  JSString.match_keyValue "a==b" = Some ("a", "=b") ∧
  JSString.match_keyValue "=x" = None ∧
  JSString.match_keyValue "a=" = None.
Proof. by split_and!. Qed.

Example htmlData_token_examples :
  htmlData_token " my key = v" = Some ("my-key", Some " v") ∧
  htmlData_token " b " = Some ("b", None) ∧
  htmlData_token "  " = None ∧
  htmlData_token " =v" = None ∧
  htmlData_token "a=" = Some ("a=", None).
Proof. by split_and!. Qed.

Example getNodeBounds_example :
  getNodeBounds node_a = mkRect 9 30 5 24 ∧
  querySelectorAtomId "b" (field_element field_ab) = Some node_b ∧
  querySelectorAtomId "c" (field_element field_ab) = None.
Proof. by split_and!. Qed.

(** * Further properties of [utils.ts] *)

(** ** DOM lookups *)

(** Induction on an element with the property known of its children. *)
Lemma Element_children_ind (P : Element → Prop) :
  (∀ e, Forall P (el_children e) → P e) → ∀ e, P e.
Proof.
  intros H. fix IH 1. intros e. apply H.
  destruct e as [b m t a cl cs]. simpl.
  induction cs as [| c cs IHcs]; constructor; [apply IH | exact IHcs].
Qed.

Lemma find_app {A} (p : A → bool) (l1 l2 : list A) :
  List.find p (l1 ++ l2)
  = match List.find p l1 with
    | Some x => Some x
    | None => List.find p l2
    end.
Proof.
  induction l1 as [| a l1 IH]; simpl; [done |]. by destruct (p a).
Qed.

Lemma querySelectorBy_find (p : Element → bool) (e : Element) :
  querySelectorBy p e = List.find p (descendants e).
Proof.
  induction e as [e IH] using Element_children_ind.
  destruct e as [b m t a cl cs]. simpl in *.
  induction cs as [| c cs IHcs]; simpl; [done |].
  apply Forall_cons in IH as [Hc Hcs]. rewrite find_app. simpl.
  destruct (p c); [done |]. rewrite Hc.
  destruct (List.find p (descendants c)); [done |]. by apply IHcs.
Qed.

Lemma querySelectorAtomId_by (id : string) (e : Element) :
  querySelectorAtomId id e
  = querySelectorBy (λ c, bool_decide (el_atomId c = Some id)) e.
Proof.
  induction e as [e IH] using Element_children_ind.
  destruct e as [b m t a cl cs]. simpl in *.
  induction cs as [| c cs IHcs]; simpl; [done |].
  apply Forall_cons in IH as [Hc Hcs].
  destruct (bool_decide _); [done |]. rewrite Hc.
  destruct (querySelectorBy _ c); [done |]. by apply IHcs.
Qed.

Lemma find_None_iff {A} (p : A → bool) (l : list A) :
  List.find p l = None ↔ ∀ x, x ∈ l → p x = false.
Proof.
  induction l as [| a l IH]; simpl.
  - split; [by intros _ x ?%elem_of_nil | done].
  - destruct (p a) eqn:Ha.
    + split; [done |]. intros H. specialize (H a (list_elem_of_here _ _)).
      congruence.
    + rewrite IH. split.
      * intros H x [-> | Hx]%elem_of_cons; [done | by apply H].
      * intros H x Hx. apply H. by right.
Qed.

Lemma find_Some_first {A} (p : A → bool) (l : list A) (x : A) :
  List.find p l = Some x ↔
  ∃ pre post, l = pre ++ x :: post ∧ p x = true ∧ ∀ y, y ∈ pre → p y = false.
Proof.
  induction l as [| a l IH]; simpl.
  - split; [done |]. by intros ([| ? ?] & ? & ? & _).
  - destruct (p a) eqn:Ha.
    + split.
      * intros [= <-]. exists [], l. split_and!; [done | done |].
        by intros y ?%elem_of_nil.
      * intros ([| b pre] & post & Hl & Hx & Hpre); simpl in Hl.
        -- by injection Hl as ->.
        -- injection Hl as -> _.
           specialize (Hpre b (list_elem_of_here _ _)). congruence.
    + rewrite IH. split.
      * intros (pre & post & -> & Hx & Hpre). exists (a :: pre), post.
        split_and!; [done | done |].
        intros y [-> | Hy]%elem_of_cons; [done | by apply Hpre].
      * intros ([| b pre] & post & Hl & Hx & Hpre); simpl in Hl.
        -- injection Hl as -> _. congruence.
        -- injection Hl as -> ->. exists pre, post. split_and!; [done | done |].
           intros y Hy. apply Hpre. by right.
Qed.

(** On a cache miss [getAtomBounds] resolves the first element, in document
    order, among the descendants of the field that is tagged with the
    identifier of the atom; it returns [null] exactly when there is none. *)
Theorem getAtomBounds_dom_lookup (mf : Mathfield) (atom : Atom) (st : Store)
    (id : string) :
  atom_id atom = Some id → truthy (Some id) = true → cache_get id st = None →
  let ds := descendants (field_element (field mf)) in
  ((getAtomBounds mf atom st).1 = None ↔
     ∀ d, d ∈ ds → el_atomId d ≠ Some id) ∧
  (∀ v, atomBoundsValue mf atom st = Some v ↔
     ∃ pre n post, ds = pre ++ n :: post ∧ el_atomId n = Some id ∧
       (∀ d, d ∈ pre → el_atomId d ≠ Some id) ∧ v = getNodeBounds n).
Proof.
  intros Hid Ht Hmiss ds.
  rewrite (atomBoundsValue_resolved mf atom st id Hid Ht).
  unfold getAtomBounds, resolved. rewrite Hid, Ht. simpl. rewrite !Hmiss.
  rewrite querySelectorAtomId_by, querySelectorBy_find. fold ds.
  destruct (List.find _ ds) as [n |] eqn:Hfind; unfold alloc; simpl.
  - apply find_Some_first in Hfind as (pre & post & Hds & Hn & Hpre).
    apply bool_decide_eq_true in Hn.
    assert (Hpre' : ∀ d, d ∈ pre → el_atomId d ≠ Some id).
    { intros d Hd. specialize (Hpre d Hd). by apply bool_decide_eq_false in Hpre. }
    split.
    + split; [done |]. intros Hno. exfalso. apply (Hno n); [| done].
      rewrite Hds. apply elem_of_app. right. by left.
    + intros v. split.
      * intros [= <-]. by exists pre, n, post.
      * intros (pre' & n' & post' & Hds' & Hn' & Hpre'' & ->).
        assert (List.find (λ c, bool_decide (el_atomId c = Some id)) ds = Some n')
          as Hf'.
        { apply find_Some_first. exists pre', post'. split_and!; [done | |].
          - by apply bool_decide_eq_true.
          - intros y Hy. apply bool_decide_eq_false. by apply Hpre''. }
        assert (List.find (λ c, bool_decide (el_atomId c = Some id)) ds = Some n)
          as Hf.
        { apply find_Some_first. exists pre, post. split_and!; [done | |].
          - by apply bool_decide_eq_true.
          - done. }
        congruence.
  - pose proof (proj1 (find_None_iff _ _) Hfind) as Hnone.
    clear Hfind. rename Hnone into Hfind. split.
    + split; [| done]. intros _ d Hd.
      specialize (Hfind d Hd). by apply bool_decide_eq_false in Hfind.
    + intros v. split; [done |].
      intros (pre & n & post & Hds & Hn & _).
      assert (n ∈ ds) as Hin by (rewrite Hds; apply elem_of_app; right; by left).
      specialize (Hfind n Hin). apply bool_decide_eq_false in Hfind. done.
Qed.

Lemma getAtomBounds_dom_lookup_witness :
  atomBoundsValue mathfield_ab atom_b store_nocache = Some (getNodeBounds node_b).
Proof.
  destruct (getAtomBounds_dom_lookup mathfield_ab atom_b store_nocache "b"
              eq_refl eq_refl eq_refl) as [_ H].
  apply H. exists [node_a], node_b, []. split_and!; try done.
  intros d [-> | []%elem_of_nil]%elem_of_cons. discriminate.
Defined.

(** What [getAtomBounds] found is cached, what it missed is not: with a
    bounds cache, a second call for the same atom returns the same rectangle
    object without touching the store or the DOM; a [null] result is looked
    up in the DOM again; and without a cache every call makes a new
    rectangle of the same value. *)
Theorem getAtomBounds_again (mf : Mathfield) (atom : Atom) (st : Store) :
  let r1 := (getAtomBounds mf atom st).1 in
  let st1 := (getAtomBounds mf atom st).2 in
  let r2 := (getAtomBounds mf atom st1).1 in
  let st2 := (getAtomBounds mf atom st1).2 in
  (is_Some (atomBoundsCache st) → is_Some r1 → r2 = r1 ∧ st2 = st1) ∧
  (r1 = None → r2 = None) ∧
  (r1 = None → truthy (atom_id atom) = true →
     domQueries st2
     = domQueries st ++ [default "" (atom_id atom); default "" (atom_id atom)]) ∧
  (atomBoundsCache st = None → truthy (atom_id atom) = true →
     ∀ l, r1 = Some l →
       r1 = Some (length (heap st)) ∧ r2 = Some (S (length (heap st))) ∧
       deref (heap st2) (S (length (heap st))) = deref (heap st1) l) ∧
  deref (heap st2) <$> r2 = deref (heap st1) <$> r1.
Proof.
  unfold getAtomBounds.
  destruct (truthy (atom_id atom)) eqn:Ht; simpl; [| by split_and!].
  set (id := default "" (atom_id atom)).
  destruct (cache_get id st) as [l |] eqn:Hget; simpl.
  { rewrite Hget. simpl. split_and!; try done.
    unfold cache_get in Hget. intros Hc. by rewrite Hc in Hget. }
  destruct (querySelectorAtomId id (field_element (field mf))) as [node |]
    eqn:Hq; simpl.
  - rewrite cache_get_cache_set. simpl.
    destruct (atomBoundsCache st) as [c |] eqn:Hc; simpl.
    + rewrite decide_True by done. simpl. split_and!; try done.
    + assert (Hlen : length (heap st ++ [getNodeBounds node])
                     = S (length (heap st)))
        by (rewrite length_app; simpl; lia).
      split_and!; try done.
      * intros _ _ l [= <-]. split_and!; [done | by rewrite Hlen |].
        rewrite <- Hlen. by rewrite !deref_alloc.
      * by rewrite !deref_alloc.
  - rewrite cache_get_cache_delete_miss by done.
    change (cache_get id (log_query id st)) with (cache_get id st).
    rewrite Hget. simpl. split_and!; try done.
    + intros _ _. by rewrite <- app_assoc.

Qed.

(** ** The caret *)

(** [getCaretPoint] looks among the descendants of the element only; it
    returns [null] exactly when none of them carries a caret class, and
    otherwise the right, bottom and height of the first one, in document
    order, carrying [ML__caret], or else [ML__text-caret], or else
    [ML__latex-caret]. *)
Theorem getCaretPoint_spec (element : Element) :
  let ds := descendants element in
  (getCaretPoint element = None ↔ ∀ d, d ∈ ds → isCaret d = false) ∧
  getCaretPoint element
  = caretPointOf <$>
      match List.find (classList_contains "ML__caret") ds with
      | Some d => Some d
      | None =>
          match List.find (classList_contains "ML__text-caret") ds with
          | Some d => Some d
          | None => List.find (classList_contains "ML__latex-caret") ds
          end
      end ∧
  (∀ pt, getCaretPoint element = Some pt →
     ∃ d, d ∈ ds ∧ isCaret d = true ∧ pt = caretPointOf d).
Proof.
  intros ds.
  assert (Heq : getCaretPoint element
    = caretPointOf <$>
        match List.find (classList_contains "ML__caret") ds with
        | Some d => Some d
        | None =>
            match List.find (classList_contains "ML__text-caret") ds with
            | Some d => Some d
            | None => List.find (classList_contains "ML__latex-caret") ds
            end
        end).
  { unfold getCaretPoint, findElementWithCaret, querySelectorClass.
    rewrite !querySelectorBy_find. fold ds.
    repeat (destruct (List.find _ ds); [done |]). done. }
  assert (Hin : ∀ p d, List.find p ds = Some d → d ∈ ds ∧ p d = true).
  { intros p d (pre & post & -> & Hp & _)%find_Some_first. split; [| done].
    apply elem_of_app. right. by left. }
  split_and!; [| exact Heq |].
  - rewrite Heq.
    destruct (List.find (classList_contains "ML__caret") ds) as [d |] eqn:H1.
    { split; [done |]. intros Hno. destruct (Hin _ _ H1) as [Hd Hp].
      specialize (Hno d Hd). unfold isCaret in Hno. rewrite Hp in Hno. done. }
    destruct (List.find (classList_contains "ML__text-caret") ds) as [d |] eqn:H2.
    { split; [done |]. intros Hno. destruct (Hin _ _ H2) as [Hd Hp].
      specialize (Hno d Hd). unfold isCaret in Hno. rewrite Hp in Hno.
      by rewrite orb_true_r in Hno. }
    destruct (List.find (classList_contains "ML__latex-caret") ds) as [d |] eqn:H3.
    { split; [done |]. intros Hno. destruct (Hin _ _ H3) as [Hd Hp].
      specialize (Hno d Hd). unfold isCaret in Hno. rewrite Hp in Hno.
      by rewrite orb_true_r in Hno. }
    split; [| done]. intros _ d Hd. unfold isCaret.
    rewrite (proj1 (find_None_iff _ _) H1 d Hd),
      (proj1 (find_None_iff _ _) H2 d Hd), (proj1 (find_None_iff _ _) H3 d Hd).
    done.
  - intros pt. rewrite Heq.
    destruct (List.find (classList_contains "ML__caret") ds) as [d |] eqn:H1.
    { intros [= <-]. destruct (Hin _ _ H1) as [Hd Hp]. exists d.
      unfold isCaret. by rewrite Hp. }
    destruct (List.find (classList_contains "ML__text-caret") ds) as [d |] eqn:H2.
    { intros [= <-]. destruct (Hin _ _ H2) as [Hd Hp]. exists d.
      unfold isCaret. rewrite Hp. by rewrite orb_true_r. }
    destruct (List.find (classList_contains "ML__latex-caret") ds) as [d |] eqn:H3;
      [| done].
    intros [= <-]. destruct (Hin _ _ H3) as [Hd Hp]. exists d.
    unfold isCaret. rewrite Hp. by rewrite orb_true_r.
Qed.

(** ** Node bounds resolver *)

Lemma getNodeBounds_unfold (node : Element) :
  getNodeBounds node
  = if (length (el_children node) =? 0)%nat || isSVG node then ownBounds node
    else fold_left
           (λ result child,
              if isAtomChild child then rect_union result (getNodeBounds child)
              else result)
           (el_children node) (ownBounds node).
Proof. by destruct node. Qed.

Lemma fold_atom_children (cs : list Element) (acc : Rect) :
  fold_left
    (λ result child,
       if isAtomChild child then rect_union result (getNodeBounds child)
       else result) cs acc
  = fold_left rect_union (getNodeBounds <$> List.filter isAtomChild cs) acc.
Proof.
  revert acc. induction cs as [| c cs IH]; intros acc; simpl; [done |].
  destruct (isAtomChild c); simpl; apply IH.
Qed.

(** [getNodeBounds] is the union of the element's own box (top and right
    moved by one pixel, right by the margin) and of the node bounds of its
    children that are tagged with an atom id and are no struts, unless the
    element is an SVG element, whose children are not looked at.  It
    encloses each of these boxes, and it does not depend on the other
    children nor on anything below them. *)
Theorem getNodeBounds_union (node : Element) :
  getNodeBounds node
  = (if isSVG node then ownBounds node
     else boundingRect
            (ownBounds node
             :: (getNodeBounds <$> List.filter isAtomChild (el_children node)))) ∧
  encloses (getNodeBounds node) (ownBounds node) ∧
  (isSVG node = false →
     ∀ c, c ∈ el_children node → isAtomChild c = true →
       encloses (getNodeBounds node) (getNodeBounds c)) ∧
  (∀ node', el_bounds node' = el_bounds node →
     el_marginRight node' = el_marginRight node →
     el_tagName node' = el_tagName node →
     List.filter isAtomChild (el_children node')
     = List.filter isAtomChild (el_children node) →
     getNodeBounds node' = getNodeBounds node).
Proof.
  assert (Heq : ∀ n, getNodeBounds n
    = (if isSVG n then ownBounds n
       else boundingRect
              (ownBounds n
               :: (getNodeBounds <$> List.filter isAtomChild (el_children n))))).
  { intros n. rewrite getNodeBounds_unfold.
    destruct (isSVG n); [by rewrite orb_true_r |]. rewrite orb_false_r.
    simpl. rewrite <- fold_atom_children.
    destruct (el_children n); done. }
  split_and!.
  - apply Heq.
  - rewrite Heq. destruct (isSVG node); [apply encloses_refl |].
    apply boundingRect_encloses. by left.
  - intros Hsvg c Hc Hq. rewrite (Heq node), Hsvg.
    apply boundingRect_encloses. right.
    apply list_elem_of_fmap_2. apply list_elem_of_In, filter_In.
    split; [by apply list_elem_of_In | done].
  - intros node' Hb Hm Ht Hf. rewrite (Heq node), (Heq node').
    unfold isSVG, ownBounds. by rewrite Hb, Hm, Ht, Hf.
Qed.

(** ** Local DOM rectangle *)

Lemma getLocalDOMRect_loop_sum (el : HTMLElement) :
  ∀ t l,
    getLocalDOMRect_loop el t l
    = (t + sumZ (html_offsetTop <$> offsetChain el),
       l + sumZ (html_offsetLeft <$> offsetChain el)).
Proof.
  revert el. fix IH 1. intros [ot ol ow oh [p |]] t l; unfold sumZ; simpl.
  - rewrite IH. unfold sumZ. by rewrite !Z.add_assoc.
  - f_equal; lia.
Qed.

(** [getLocalDOMRect] has the width and height of the element itself and,
    as origin, the sum of the offsets of the element and of the elements
    it is positioned in; hence the origin of an element is that of its
    [offsetParent] moved by the element's own offsets. *)
Theorem getLocalDOMRect_spec (el : HTMLElement) :
  getLocalDOMRect el
  = mkDOMRect (inject_Z (sumZ (html_offsetLeft <$> offsetChain el)))
      (inject_Z (sumZ (html_offsetTop <$> offsetChain el)))
      (inject_Z (html_offsetWidth el)) (inject_Z (html_offsetHeight el)) ∧
  (html_offsetParent el = None →
     x (getLocalDOMRect el) = inject_Z (html_offsetLeft el) ∧
     y (getLocalDOMRect el) = inject_Z (html_offsetTop el)) ∧
  (∀ p, html_offsetParent el = Some p →
     (x (getLocalDOMRect el) == x (getLocalDOMRect p) + inject_Z (html_offsetLeft el))%Q ∧
     (y (getLocalDOMRect el) == y (getLocalDOMRect p) + inject_Z (html_offsetTop el))%Q).
Proof.
  assert (Heq : ∀ e, getLocalDOMRect e
    = mkDOMRect (inject_Z (sumZ (html_offsetLeft <$> offsetChain e)))
        (inject_Z (sumZ (html_offsetTop <$> offsetChain e)))
        (inject_Z (html_offsetWidth e)) (inject_Z (html_offsetHeight e))).
  { intros e. unfold getLocalDOMRect. by rewrite getLocalDOMRect_loop_sum. }
  split_and!.
  - apply Heq.
  - intros Hp. rewrite Heq. destruct el; simpl in *; subst.
    unfold sumZ. simpl. by rewrite !Z.add_0_r.
  - intros p Hp. rewrite (Heq el), (Heq p). destruct el; simpl in *; subst.
    unfold sumZ. simpl. rewrite <- !inject_Z_plus.
    split; apply inject_Z_injective; apply Z.add_comm.
Qed.

(** ** Element info: the id *)

Lemma getElementInfo_walk_unfold (a : Atom)
    (data : option (gmap string (option string))) (id : option string) :
  getElementInfo_walk a data id
  = let data' :=
      if String.eqb (command a) "\htmlData" then
        match firstStringArg a with
        | Some s => fold_left htmlData_entry (JSString.split "," s) data
        | None => data
        end
      else data in
    let id' :=
      if isIdCommand a then
        if negb (truthy id) then
          match firstStringArg a with
          | Some s => Some s
          | None => id
          end
        else id
      else id in
    match parent a with
    | Some p => getElementInfo_walk p data' id'
    | None => (data', id')
    end.
Proof. by destruct a. Qed.

Lemma elementId_cons_empty (ids : list string) :
  elementId ("" :: ids)
  = match elementId ids with
    | Some t => Some t
    | None => Some ""
    end.
Proof.
  unfold elementId. simpl. destruct (List.find _ ids); [done |].
  destruct ids as [| s ids]; [done |]. rewrite last_cons_cons.
  destruct (last (s :: ids)) eqn:E; [done |]. by apply last_None in E.
Qed.

Lemma getElementInfo_walk_id (a : Atom) :
  ∀ data id,
    (getElementInfo_walk a data id).2
    = if truthy id then id
      else match elementId (idArgs a) with
           | Some s => Some s
           | None => id
           end.
Proof.
  induction a as [a Hroot | a p Hp IH] using Atom_parent_ind; intros data id;
    rewrite getElementInfo_walk_unfold; unfold idArgs; simpl.
  - rewrite Hroot, (chain_root a Hroot). simpl.
    destruct (truthy id) eqn:Ht; simpl; [by destruct (isIdCommand a) |].
    destruct (isIdCommand a); [| done].
    destruct (firstStringArg a) as [[| c s] |]; done.
  - rewrite Hp, (chain_parent a p Hp), IH. simpl. fold (idArgs p).
    destruct (truthy id) eqn:Ht; simpl.
    { destruct (isIdCommand a); by rewrite Ht. }
    destruct (isIdCommand a); [| by rewrite Ht].
    destruct (firstStringArg a) as [[| c s] |]; simpl; [| done | by rewrite Ht].
    change (list_omap _ _ _ (chain p)) with (idArgs p).
    rewrite elementId_cons_empty. by destruct (elementId (idArgs p)).
Qed.

(** The id of [getElementInfo] is the first non-empty string among the
    first arguments of the [\htmlId] and [\cssId] commands on the chain of
    the atom, nearest first; when all of them are empty it is the empty
    string, and there is no id when no such command has a string as first
    argument. *)
Theorem getElementInfo_id (serialize : Atom → string) (mf : Mathfield)
    (offset : Z) (st : Store) (atom : Atom) :
  model_at mf offset = Some atom →
  ∃ info st',
    getElementInfo serialize (Some mf) offset st = (Some info, st') ∧
    info_id info = elementId (idArgs atom) ∧
    (∀ s, s ∈ idArgs atom → s ≠ "" → ∃ t, info_id info = Some t ∧ t ≠ "") ∧
    (idArgs atom = [] ↔ info_id info = None).
Proof.
  intros Hat. unfold getElementInfo. rewrite Hat.
  destruct (getAtomBounds mf atom st) as [bounds st1].
  pose proof (getElementInfo_walk_id atom None None) as Hid.
  destruct (getElementInfo_walk atom None None) as [data id].
  simpl in Hid. subst id.
  eexists _, _. split; [reflexivity |]. simpl.
  assert (Heq : match elementId (idArgs atom) with
                | Some s => Some s
                | None => None
                end = elementId (idArgs atom))
    by (by destruct (elementId (idArgs atom))).
  rewrite Heq. split_and!; [done | |].
  - intros s Hs Hne. unfold elementId.
    destruct (List.find JSString.nonEmpty (idArgs atom)) as [t |] eqn:Hf.
    + exists t. split; [done |].
      apply find_Some_first in Hf as (_ & _ & _ & Ht & _). by destruct t.
    + pose proof (proj1 (find_None_iff _ _) Hf s Hs). by destruct s.
  - unfold elementId. split.
    + by intros ->.
    + destruct (List.find JSString.nonEmpty (idArgs atom)); [done |].
      apply last_None.
Qed.

Lemma getElementInfo_id_witness :
  ∃ info st',
    getElementInfo serialize_none (Some (mathfield_of [atom_id_leaf])) 0
      store_nocache = (Some info, st') ∧
    info_id info = Some "outer".
Proof.
  destruct (getElementInfo_id serialize_none (mathfield_of [atom_id_leaf]) 0
              store_nocache atom_id_leaf eq_refl)
    as (info & st' & Hrun & Hid & _).
  exists info, st'. split; [exact Hrun |]. rewrite Hid. reflexivity.
Defined.

(** ** Element info: shape of the data *)

Lemma string_app_cons (c : ascii) (s t : string) :
  String c s +:+ t = String c (s +:+ t).
Proof. reflexivity. Qed.

Lemma string_app_assoc (s t u : string) : (s +:+ t) +:+ u = s +:+ t +:+ u.
Proof.
  induction s as [| c s IH]; [done |]. rewrite !string_app_cons. by f_equal.
Qed.

Lemma string_app_length (s t : string) :
  String.length (s +:+ t) = (String.length s + String.length t)%nat.
Proof.
  induction s as [| c s IH]; [done |]. rewrite string_app_cons. simpl.
  by f_equal.
Qed.

Lemma all_app (p : ascii → bool) (s t : string) :
  JSString.all p (s +:+ t) = JSString.all p s && JSString.all p t.
Proof.
  induction s as [| c s IH]; [done |]. rewrite string_app_cons. simpl.
  rewrite IH. by rewrite andb_assoc.
Qed.

Lemma split_all (sep : ascii) (s : string) :
  ∀ piece, piece ∈ JSString.split sep s →
    JSString.all (notChar sep) piece = true.
Proof.
  induction s as [| c s IH]; simpl.
  - by intros piece [-> | []%elem_of_nil]%elem_of_cons.
  - destruct (Ascii.eqb_spec c sep) as [-> | Hne].
    + intros piece [-> | Hp]%elem_of_cons; [done | by apply IH].
    + destruct (JSString.split sep s) as [| w ws].
      * intros piece [-> | []%elem_of_nil]%elem_of_cons. simpl.
        unfold notChar. by destruct (Ascii.eqb_spec c sep).
      * intros piece [-> | Hp]%elem_of_cons.
        -- simpl. rewrite (IH w) by by left. unfold notChar.
           by destruct (Ascii.eqb_spec c sep).
        -- apply IH. by right.
Qed.

Lemma all_trimStart (p : ascii → bool) (s : string) :
  JSString.all p s = true → JSString.all p (JSString.trimStart s) = true.
Proof.
  induction s as [| c s IH]; simpl; [done |].
  intros [Hc Hs]%andb_true_iff. destruct (JSString.isWhiteSpace c); [by apply IH |].
  simpl. by rewrite Hc, Hs.
Qed.

Lemma all_trimEnd (p : ascii → bool) (s : string) :
  JSString.all p s = true → JSString.all p (JSString.trimEnd s) = true.
Proof.
  induction s as [| c s IH]; simpl; [done |].
  intros [Hc Hs]%andb_true_iff. specialize (IH Hs).
  destruct (JSString.trimEnd s) as [| d t].
  - destruct (JSString.isWhiteSpace c); simpl; [done | by rewrite Hc].
  - simpl in *. by rewrite Hc, IH.
Qed.

Lemma all_trim (p : ascii → bool) (s : string) :
  JSString.all p s = true → JSString.all p (JSString.trim s) = true.
Proof. intros H. by apply all_trimEnd, all_trimStart. Qed.

Lemma all_replaceSpaces (p : ascii → bool) (s : string) :
  p "-"%char = true → JSString.all p s = true →
  JSString.all p (JSString.replaceSpaces s) = true.
Proof.
  intros Hh. induction s as [| c s IH]; simpl; [done |].
  intros [Hc Hs]%andb_true_iff. rewrite (IH Hs).
  destruct (Ascii.eqb c " "); by rewrite ?Hh, ?Hc.
Qed.

Lemma replaceSpaces_no_space (s : string) :
  JSString.all (notChar " ") (JSString.replaceSpaces s) = true.
Proof.
  induction s as [| c s IH]; simpl; [done |]. rewrite IH.
  unfold notChar. destruct (Ascii.eqb c " ") eqn:E; [done |]. by rewrite E.
Qed.

(** What a match of [/([^=]+)=(.+$)/] captures: the entry ends with group 1,
    ['='] and group 2; group 1 is not empty and has no ['=']; group 2 is not
    empty and has no line terminator. *)
Lemma match_from_sound (s : string) :
  ∀ run k v,
    JSString.all (notChar "=") run = true →
    JSString.match_from run s = Some (k, v) →
    (∃ pre, run +:+ s = pre +:+ k +:+ "=" +:+ v) ∧
    JSString.nonEmpty k = true ∧ JSString.all (notChar "=") k = true ∧
    JSString.nonEmpty v = true ∧
    JSString.all (λ d, negb (JSString.isLineTerminator d)) v = true.
Proof.
  induction s as [| c s IH]; intros run k v Hrun; simpl; [done |].
  destruct (Ascii.eqb_spec c "=") as [-> | Hne].
  - destruct (JSString.nonEmpty run && JSString.nonEmpty s
              && JSString.all _ s) eqn:E.
    + intros [= <- <-].
      apply andb_true_iff in E as [[Hr Hs]%andb_true_iff Hlt].
      split_and!; try done. by exists "".
    + intros Hm. destruct (IH "" k v eq_refl Hm) as ((pre & Hpre) & Hrest).
      split; [| exact Hrest].
      exists (run +:+ "=" +:+ pre). change ("" +:+ s) with s in Hpre.
      rewrite Hpre. by rewrite !string_app_assoc.
  - intros Hm.
    assert (Hrun' : JSString.all (notChar "=") (run +:+ String c "") = true).
    { rewrite all_app, Hrun. simpl. unfold notChar.
      by destruct (Ascii.eqb_spec c "="). }
    destruct (IH _ k v Hrun' Hm) as ((pre & Hpre) & Hrest).
    split; [| exact Hrest]. exists pre. rewrite <- Hpre.
    by rewrite string_app_assoc.
Qed.

Lemma match_from_all (p : ascii → bool) (s : string) :
  ∀ run k v,
    JSString.all p run = true → JSString.all p s = true →
    JSString.match_from run s = Some (k, v) →
    JSString.all p k = true ∧ JSString.all p v = true.
Proof.
  induction s as [| c s IH]; intros run k v Hrun; simpl; [done |].
  intros [Hc Hs]%andb_true_iff.
  destruct (Ascii.eqb c "=").
  - destruct (_ && _ && _).
    + by intros [= <- <-].
    + by apply IH.
  - apply IH; [| done]. rewrite all_app, Hrun. simpl. by rewrite Hc.
Qed.

Lemma htmlData_token_shape (entry key : string) (v : option string) :
  JSString.all (notChar ",") entry = true →
  htmlData_token entry = Some (key, v) →
  JSString.nonEmpty key = true ∧
  JSString.all (notChar " ") key = true ∧
  JSString.all (notChar ",") key = true ∧
  ∀ s, v = Some s →
    JSString.nonEmpty s = true ∧
    JSString.all (λ d, negb (JSString.isLineTerminator d)) s = true ∧
    JSString.all (notChar ",") s = true.
Proof.
  intros Hentry. unfold htmlData_token, JSString.match_keyValue.
  destruct (JSString.match_from "" entry) as [[m1 m2] |] eqn:Hm.
  - destruct (match_from_sound entry "" m1 m2 eq_refl Hm)
      as (_ & _ & _ & Hv & Hlt).
    destruct (match_from_all (notChar ",") entry "" m1 m2 eq_refl Hentry Hm)
      as [Hk1 Hk2].
    destruct (JSString.nonEmpty (JSString.replaceSpaces (JSString.trim m1)))
      eqn:Hne; [| done].
    intros [= <- <-]. split_and!; [done | apply replaceSpaces_no_space | |].
    + by apply all_replaceSpaces, all_trim.
    + by intros s [= <-].
  - destruct (JSString.nonEmpty (JSString.replaceSpaces (JSString.trim entry)))
      eqn:Hne; [| done].
    intros [= <- <-]. split_and!; [done | apply replaceSpaces_no_space | | done].
    by apply all_replaceSpaces, all_trim.
Qed.

Lemma last_entry_elem_of (key : string) (es : list (string * option string))
    (v : option string) :
  last_entry key es = Some v → (key, v) ∈ es.
Proof.
  induction es as [| [k w] es IH]; simpl; [done |].
  destruct (last_entry key es) as [r |].
  - intros [= ->]. right. by apply IH.
  - case_decide; [| done]. intros [= ->]. subst. by left.
Qed.

Lemma chain_entries_shape (a : Atom) (key : string) (v : option string) :
  (key, v) ∈ chain_entries a →
  ∃ entry, JSString.all (notChar ",") entry = true ∧
           htmlData_token entry = Some (key, v).
Proof.
  unfold chain_entries.
  intros (es & Hes & Hin)%list_elem_of_In%in_concat.
  apply list_elem_of_In, list_elem_of_fmap in Hes as (c & -> & _).
  apply list_elem_of_In in Hin.
  unfold htmlData_of in Hin. destruct (String.eqb _ _); [| by apply elem_of_nil in Hin].
  destruct (firstStringArg c) as [s |]; [| by apply elem_of_nil in Hin].
  unfold htmlData_entries in Hin.
  apply list_elem_of_omap in Hin as (entry & Hentry & Htok).
  exists entry. split; [| done]. by apply (split_all "," s).
Qed.

(** Every key of the data of [getElementInfo] is non-empty and has neither
    space nor comma; every value that is not [undefined] is a non-empty
    string without comma and without line feed or carriage return. *)
Theorem getElementInfo_data_shape (serialize : Atom → string)
    (mf : option Mathfield) (offset : Z) (st : Store) (info : ElementInfo)
    (st' : Store) (data : gmap string (option string)) (key : string)
    (v : option string) :
  getElementInfo serialize mf offset st = (Some info, st') →
  info_data info = Some data →
  data !! key = Some v →
  key ≠ "" ∧
  JSString.all (notChar " ") key = true ∧
  JSString.all (notChar ",") key = true ∧
  ∀ s, v = Some s →
    s ≠ "" ∧
    JSString.all (λ d, negb (JSString.isLineTerminator d)) s = true ∧
    JSString.all (notChar ",") s = true.
Proof.
  unfold getElementInfo. destruct mf as [mf |]; [| done].
  destruct (model_at mf offset) as [atom |]; [| done].
  destruct (getAtomBounds mf atom st) as [bounds st1].
  pose proof (getElementInfo_walk_data atom None None) as Hdata.
  destruct (getElementInfo_walk atom None None) as [d id]. simpl in Hdata.
  intros [= <- <-]. simpl. rewrite Hdata. intros Hd Hlook.
  destruct (chain_entries atom) as [| e es] eqn:Hes; [done |].
  destruct (fold_data_add_lookup es e None) as (m & Hm & Hm').
  rewrite Hm in Hd. injection Hd as ->. rewrite Hm' in Hlook.
  assert (Hlast : last_entry key (e :: es) = Some v).
  { unfold stored_entry in Hlook.
    destruct (String.eqb key "__proto__");
      [simpl in Hlook; by rewrite lookup_empty in Hlook |].
    destruct (last_entry key (e :: es)); [done |].
    simpl in Hlook. by rewrite lookup_empty in Hlook. }
  apply last_entry_elem_of in Hlast. rewrite <- Hes in Hlast.
  destruct (chain_entries_shape atom key v Hlast) as (entry & Hentry & Htok).
  destruct (htmlData_token_shape entry key v Hentry Htok)
    as (Hk & Hsp & Hco & Hv).
  split_and!; [by destruct key | done | done |].
  intros s Hs. destruct (Hv s Hs) as (H1 & H2 & H3).
  split_and!; [by destruct s | done | done].
Qed.

Lemma getElementInfo_data_shape_witness :
  "a" ≠ "" ∧ JSString.all (notChar " ") "a" = true.
Proof.
  destruct (getElementInfo_data_shape serialize_none
              (Some (mathfield_of [atom_data_leaf])) 0 store_nocache
              _ _ _ "a" (Some "1") eq_refl eq_refl eq_refl)
    as (H1 & H2 & _).
  by split.
Defined.

(** ** Branch keys *)

Lemma string_app_inj_length (s1 s2 t1 t2 : string) :
  String.length s1 = String.length s2 →
  s1 +:+ t1 = s2 +:+ t2 → s1 = s2 ∧ t1 = t2.
Proof.
  revert s2. induction s1 as [| c s1 IH]; intros [| d s2] Hlen; try done.
  rewrite !string_app_cons. intros [= -> Heq].
  destruct (IH s2) as [-> ->]; [by injection Hlen | done | done].
Qed.

Lemma row_tag_inj (r r' : Z) :
  pretty r +:+ "/" +:+ pretty r = pretty r' +:+ "/" +:+ pretty r' → r = r'.
Proof.
  intros Heq. apply (inj pretty).
  apply (string_app_inj_length _ _ ("/" +:+ pretty r) ("/" +:+ pretty r'));
    [| done].
  apply (f_equal String.length) in Heq.
  rewrite !string_app_length in Heq. simpl in Heq. lia.
Qed.

(** The key of an atom that has a parent is never ["root"].  Under one
    parent, two named branches have the same key exactly when they have the
    same name, and two cells have the same key exactly when they are in the
    same row: the column plays no part. *)
Theorem branchId_keys (a b p : Atom) :
  parent a = Some p → parent b = Some p →
  (∀ k, branchId a = Normal k → k ≠ "root") ∧
  (∀ n n', parentBranch a = Some (BranchName n) →
     parentBranch b = Some (BranchName n') →
     (branchId a = branchId b ↔ n = n')) ∧
  (∀ r c r' c', parentBranch a = Some (BranchCell r c) →
     parentBranch b = Some (BranchCell r' c') →
     (branchId a = branchId b ↔ r = r')).
Proof.
  intros Ha Hb. unfold branchId. rewrite Ha, Hb. split_and!.
  - intros k Hk.
    assert (∃ rest, k = default "" (atom_id p) +:+ "-" +:+ rest) as [rest ->].
    { destruct (parentBranch a) as [[n | r c] |]; simplify_eq; eauto. }
    intros Heq. apply (f_equal (JSString.all (notChar "-"))) in Heq.
    rewrite all_app in Heq. change ("-" +:+ rest) with (String "-" rest) in Heq.
    simpl in Heq. by rewrite andb_false_r in Heq.
  - intros n n' -> ->. split; [| by intros ->].
    intros [= Heq]. by apply (inj (String.app _)), (inj (String.app _)) in Heq.
  - intros r c r' c' -> ->. split; [| by intros ->].
    intros [= Heq]. apply (inj (String.app _)), (inj (String.app _)) in Heq.
    by apply row_tag_inj.
Qed.

Lemma branchId_keys_witness :
  branchId atom_cell
  = branchId (mkAtom (Some "e") (Some atom_root) (Some (BranchCell 2 7)) ""
                None (mkStyle None) 1 "math").
Proof.
  destruct (branchId_keys atom_cell
              (mkAtom (Some "e") (Some atom_root) (Some (BranchCell 2 7)) ""
                 None (mkStyle None) 1 "math") atom_root eq_refl eq_refl)
    as (_ & _ & H).
  by apply (H 2 5 2 7 eq_refl eq_refl).
Defined.

(** ** Whole-range bounding box: errors and sharing *)

Lemma indices_elem_of (j i : Z) (n : nat) :
  i ≤ j < i + Z.of_nat n → j ∈ indices i n.
Proof.
  revert i. induction n as [| n IH]; intros i Hj; simpl; [lia |].
  destruct (decide (j = i)) as [-> | Hne]; [by left |].
  right. apply IH. lia.
Qed.

Lemma getRangeBoundingRect_loop_throws (mf : Mathfield) (n : nat) :
  ∀ i res st,
    (getRangeBoundingRect_loop mf n i res st = Throw TypeError ↔
       ∃ j, j ∈ indices i n ∧ model_at mf j = None) ∧
    ((∀ j, j ∈ indices i n → is_Some (model_at mf j)) →
       ∃ res' st', getRangeBoundingRect_loop mf n i res st = Normal (res', st')).
Proof.
  induction n as [| n IH]; intros i res st; simpl.
  - split; [| by eexists _, _].
    split; [done |]. by intros (j & ?%elem_of_nil & _).
  - destruct (model_at mf i) as [a |] eqn:Ha.
    + destruct (getAtomBounds mf a st) as [b st1].
      assert (Hiff : (∃ j, j ∈ i :: indices (i + 1) n ∧ model_at mf j = None)
                     ↔ ∃ j, j ∈ indices (i + 1) n ∧ model_at mf j = None).
      { split.
        - intros (j & [-> | Hj]%elem_of_cons & Hnone); [congruence | eauto].
        - intros (j & Hj & Hnone). exists j. split; [by right | done]. }
      assert (Hall : (∀ j, j ∈ i :: indices (i + 1) n → is_Some (model_at mf j))
                     → ∀ j, j ∈ indices (i + 1) n → is_Some (model_at mf j)).
      { intros H j Hj. apply H. by right. }
      destruct b as [l |]; [destruct res as [r |] |];
        (split; [rewrite Hiff; apply IH | intros H; apply IH; by apply Hall]).
    + split.
      * split; [| done]. intros _. exists i. split; [by left | done].
      * intros H. destruct (H i) as [? ?]; [by left | congruence].
Qed.

(** [getRangeBoundingRect] throws exactly when some index of the range
    holds no atom, and returns a rectangle otherwise. *)
Theorem getRangeBoundingRect_throws_iff (mf : Mathfield) (start end_ : Z)
    (st : Store) :
  (getRangeBoundingRect mf (start, end_) st = Throw TypeError ↔
     ∃ i, start ≤ i ≤ end_ ∧ model_at mf i = None) ∧
  ((∀ i, start ≤ i ≤ end_ → is_Some (model_at mf i)) ↔
     ∃ r st', getRangeBoundingRect mf (start, end_) st = Normal (r, st')).
Proof.
  destruct (getRangeBoundingRect_loop_throws mf
              (Z.to_nat (end_ - start + 1)) start None st) as [Hthrow Hnormal].
  assert (Hiff : (∃ j, j ∈ indices start (Z.to_nat (end_ - start + 1))
                       ∧ model_at mf j = None)
                 ↔ ∃ i, start ≤ i ≤ end_ ∧ model_at mf i = None).
  { split; intros (j & Hj & Hnone); exists j; (split; [| done]).
    - apply elem_of_indices in Hj. lia.
    - apply indices_elem_of. lia. }
  assert (H1 : getRangeBoundingRect mf (start, end_) st = Throw TypeError ↔
               ∃ i, start ≤ i ≤ end_ ∧ model_at mf i = None).
  { rewrite <- Hiff, <- Hthrow. unfold getRangeBoundingRect.
    destruct (getRangeBoundingRect_loop _ _ _ _ _) as [[[r |] st'] | []];
      by split. }
  split; [exact H1 |]. split.
  - intros Hall. destruct Hnormal as (res' & st' & Hrun).
    { intros j Hj%elem_of_indices. apply Hall. lia. }
    unfold getRangeBoundingRect. rewrite Hrun.
    destruct res' as [r |]; by eexists _, _.
  - intros (r & st' & Hrun) i Hi.
    destruct (model_at mf i) eqn:Hat; [by eexists |].
    assert (getRangeBoundingRect mf (start, end_) st = Throw TypeError)
      by (apply H1; eauto).
    congruence.
Qed.

Lemma getAtomBounds_keeps_entry (mf : Mathfield) (a : Atom) (st : Store)
    (id : string) (r : loc) :
  cache_get id st = Some r → cache_get id (getAtomBounds mf a st).2 = Some r.
Proof.
  intros Hr. unfold getAtomBounds.
  destruct (truthy (atom_id a)); simpl; [| done].
  destruct (cache_get (default "" (atom_id a)) st) eqn:Hget; [done |].
  destruct (querySelectorAtomId _ _); simpl.
  - rewrite cache_get_cache_set. simpl.
    unfold cache_get in Hr, Hget. destruct (atomBoundsCache st); [| done].
    case_decide; [congruence | done].
  - by rewrite cache_get_cache_delete_miss.
Qed.

Lemma getRangeBoundingRect_loop_keeps (mf : Mathfield) (id : string) (r : loc)
    (n : nat) :
  ∀ i st,
    (∀ j, j ∈ indices i n → is_Some (model_at mf j)) →
    cache_get id st = Some r →
    ∃ st', getRangeBoundingRect_loop mf n i (Some r) st = Normal (Some r, st') ∧
           cache_get id st' = Some r.
Proof.
  induction n as [| n IH]; intros i st Hat Hr; simpl; [by eexists |].
  destruct (Hat i) as [a Ha]; [by left |]. rewrite Ha.
  pose proof (getAtomBounds_keeps_entry mf a st id r Hr) as Hkeep.
  destruct (getAtomBounds mf a st) as [b st1]. simpl in Hkeep.
  assert (Hat' : ∀ j, j ∈ indices (i + 1) n → is_Some (model_at mf j))
    by (intros j Hj; apply Hat; by right).
  destruct b as [l |]; apply IH; done.
Qed.

(** The rectangle [getRangeBoundingRect] returns is the rectangle object of
    the first atom of the range when that atom has bounds; with a bounds
    cache, that object is the cache entry of the atom, so that after the
    call the cached bounds of the first atom are the union over the whole
    range. *)
Theorem getRangeBoundingRect_result_is_cached (mf : Mathfield)
    (start end_ : Z) (st : Store) (a0 : Atom) (id : string) :
  store_wf st →
  (∀ i, start ≤ i ≤ end_ → is_Some (model_at mf i)) →
  start ≤ end_ →
  model_at mf start = Some a0 →
  atom_id a0 = Some id →
  is_Some (atomBoundsCache st) →
  is_Some (atomBoundsValue mf a0 st) →
  ∃ r st',
    getRangeBoundingRect mf (start, end_) st = Normal (r, st') ∧
    cache_get id st' = Some r ∧
    getAtomBounds mf a0 st' = (Some r, st') ∧
    atomBoundsValue mf a0 st'
    = Some (boundingRect
              (omap (λ a, atomBoundsValue mf a st) (rangeAtoms mf start end_))).
Proof.
  intros Hwf Hat Hle Ha0 Hid [c Hc] [v0 Hv0].
  assert (Hat' : ∀ j, j ∈ indices start (Z.to_nat (end_ - start + 1)) →
                      is_Some (model_at mf j)).
  { intros j Hj%elem_of_indices. apply Hat. lia. }
  destruct (getRangeBoundingRect_loop_spec mf st _ start None st
              (loop_inv_init mf st Hwf) Hat') as (res & st' & Hloop & Hres).
  fold (rangeAtoms mf start end_) in Hres. simpl in Hres.
  destruct (Z.to_nat (end_ - start + 1)) as [| n] eqn:Hn; [lia |].
  (* the first iteration *)
  assert (Ht : truthy (atom_id a0) = true).
  { destruct (truthy (atom_id a0)) eqn:Ht; [done |].
    by rewrite atomBoundsValue_falsy in Hv0. }
  assert (∃ l st1, getAtomBounds mf a0 st = (Some l, st1)
                   ∧ cache_get id st1 = Some l) as (l & st1 & Hrun & Hl).
  { revert Hv0. unfold atomBoundsValue, getAtomBounds. rewrite Ht, Hid. simpl.
    destruct (cache_get id st) as [l |] eqn:Hget; [by eexists _, _ |].
    destruct (querySelectorAtomId id (field_element (field mf))); [| done].
    intros _. eexists _, _. split; [reflexivity |].
    rewrite cache_get_cache_set. simpl. rewrite Hc. by rewrite decide_True. }
  assert (Hstep : getRangeBoundingRect_loop mf (S n) start None st
                  = getRangeBoundingRect_loop mf n (start + 1) (Some l) st1).
  { simpl. by rewrite Ha0, Hrun. }
  destruct (getRangeBoundingRect_loop_keeps mf id l n (start + 1) st1)
    as (st'' & Hrest & Hkeep); [| done |].
  { intros j Hj. apply Hat'. by right. }
  rewrite Hstep, Hrest in Hloop. injection Hloop as <- <-.
  assert (Hhit : getAtomBounds mf a0 st'' = (Some l, st'')).
  { unfold getAtomBounds. rewrite Ht, Hid. simpl. by rewrite Hkeep. }
  exists l, st''. split_and!; [| done | done |].
  - unfold getRangeBoundingRect. rewrite Hn, Hstep, Hrest. done.
  - unfold atomBoundsValue at 1. rewrite Hhit. simpl.
    rewrite <- fold_accumulate_boundingRect, <- Hres. done.
Qed.

Lemma getRangeBoundingRect_result_is_cached_witness :
  atomBoundsValue mathfield_ab atom_a
    (match getRangeBoundingRect mathfield_ab (0, 1) store_cached with
     | Normal (_, st') => st'
     | Throw _ => store_cached
     end)
  = Some (mkRect 0 20 0 20).
Proof.
  assert (H01 : 0 ≤ 1) by lia.
  destruct (getRangeBoundingRect_result_is_cached mathfield_ab 0 1 store_cached
              atom_a "a" store_cached_wf mathfield_ab_atoms H01 eq_refl eq_refl
              (ex_intro _ _ eq_refl) (ex_intro _ _ eq_refl))
    as (r & st' & Hrun & _ & _ & Hval).
  rewrite Hrun, Hval. reflexivity.
Defined.

(** ** Range bounds aggregator *)

Lemma rects_get_set_eq (k : string) (v : NRect) (rects : list (string * NRect)) :
  rects_get k (rects_set k v rects) = Some v.
Proof.
  induction rects as [| [k' r] rects IH]; simpl.
  - by rewrite String.eqb_refl.
  - destruct (String.eqb_spec k' k) as [-> | Hne]; simpl.
    + by rewrite String.eqb_refl.
    + by destruct (String.eqb_spec k' k).
Qed.

Lemma rects_get_set_ne (k k' : string) (v : NRect) (rects : list (string * NRect)) :
  k' ≠ k → rects_get k (rects_set k' v rects) = rects_get k rects.
Proof.
  intros Hne. induction rects as [| [k'' r] rects IH]; simpl.
  - by destruct (String.eqb_spec k' k).
  - destruct (String.eqb_spec k'' k') as [-> | Hne']; simpl.
    + by destruct (String.eqb_spec k' k).
    + destruct (String.eqb_spec k'' k); [done | apply IH].
Qed.

Lemma rects_get_Some_keys (k : string) (rects : list (string * NRect)) :
  is_Some (rects_get k rects) ↔ k ∈ rects.*1.
Proof.
  induction rects as [| [k' r] rects IH]; simpl.
  - split; [by intros [? ?] | by intros ?%elem_of_nil].
  - destruct (String.eqb_spec k' k) as [-> | Hne].
    + split; [intros _; by left | by eexists].
    + rewrite IH. split; [intros H; by right |].
      by intros [-> | H]%elem_of_cons.
Qed.

Lemma rects_set_keys (k : string) (v : NRect) (rects : list (string * NRect)) :
  (rects_set k v rects).*1
  = if bool_decide (k ∈ rects.*1) then rects.*1 else rects.*1 ++ [k].
Proof.
  induction rects as [| [k' r] rects IH].
  - done.
  - cbn [rects_set]. destruct (String.eqb_spec k' k) as [-> | Hne].
    + clear IH. cbn [fmap list_fmap fst].
      rewrite bool_decide_eq_true_2; [done | by left].
    + cbn [fmap list_fmap fst] in *. rewrite IH. clear IH.
      destruct (decide (k ∈ rects.*1)) as [Hin | Hin].
      * rewrite !bool_decide_eq_true_2; [done | by right | done].
      * rewrite !bool_decide_eq_false_2; [done | | done].
        by intros [-> | ?]%elem_of_cons.
Qed.

Lemma group_add_keys (rects : list (string * NRect)) (kv : string * NRect) :
  (group_add rects kv).*1
  = if bool_decide (kv.1 ∈ rects.*1) then rects.*1 else rects.*1 ++ [kv.1].
Proof.
  unfold group_add. destruct (rects_get kv.1 rects); apply rects_set_keys.
Qed.

Lemma fold_group_add_keys (kvs rects : list (string * NRect)) :
  (fold_left group_add kvs rects).*1
  = fold_left (λ acc k, if bool_decide (k ∈ acc) then acc else acc ++ [k])
      kvs.*1 rects.*1.
Proof.
  revert rects. induction kvs as [| kv kvs IH]; intros rects; simpl; [done |].
  by rewrite IH, group_add_keys.
Qed.

Lemma fold_firstKeys_NoDup (ks acc : list string) :
  NoDup acc →
  NoDup (fold_left (λ acc k, if bool_decide (k ∈ acc) then acc else acc ++ [k])
           ks acc).
Proof.
  revert acc. induction ks as [| k ks IH]; intros acc Hacc; simpl; [done |].
  apply IH. case_bool_decide as Hin; [done |].
  apply NoDup_app. split_and!; [done | | apply NoDup_singleton].
  intros x Hx ->%list_elem_of_singleton. done.
Qed.

Lemma fold_group_add_get (k : string) (kvs rects : list (string * NRect)) :
  rects_get k (fold_left group_add kvs rects)
  = match rects_get k rects with
    | Some r => Some (fold_left NRect_union (valuesOf k kvs) r)
    | None => unionOf (valuesOf k kvs)
    end.
Proof.
  revert rects. induction kvs as [| [k' v] kvs IH]; intros rects; simpl.
  - by destruct (rects_get k rects).
  - rewrite IH. unfold group_add. simpl. case_bool_decide as Hk.
    + subst k'. destruct (rects_get k rects) as [r |];
        by rewrite rects_get_set_eq.
    + destruct (rects_get k' rects) as [r' |];
        by rewrite rects_get_set_ne.
Qed.

Lemma branchId_Normal (a : Atom) :
  (is_Some (parent a) → is_Some (parentBranch a)) →
  ∃ k, branchId a = Normal k.
Proof.
  unfold branchId. intros H. destruct (parent a) as [p |]; [| by eexists].
  destruct H as [[n | r c] ->]; by eexists.
Qed.

Lemma getAtomBounds_heap_length (mf : Mathfield) (a : Atom) (st : Store) :
  (length (heap st) ≤ length (heap (getAtomBounds mf a st).2))%nat.
Proof.
  unfold getAtomBounds. destruct (truthy (atom_id a)); simpl; [| done].
  destruct (cache_get _ st); simpl; [done |].
  destruct (querySelectorAtomId _ _); simpl; [| done].
  rewrite length_app. lia.
Qed.

Lemma getRangeBounds_loop_spec (mf : Mathfield) (excl : bool) (scale : number)
    (st0 : Store) (atoms : list Atom) :
  ∀ rects st,
    loop_inv mf st0 None st →
    branches_present atoms →
    ∃ st',
      getRangeBounds_loop mf excl scale atoms rects st
      = Normal (fold_left group_add (contributions mf excl scale st0 atoms) rects,
                st') ∧
      loop_inv mf st0 None st' ∧
      (length (heap st) ≤ length (heap st'))%nat ∧
      (∀ l, (l < length (heap st))%nat → deref (heap st') l = deref (heap st) l) ∧
      (∀ id l, cache_get id st = Some l → cache_get id st' = Some l).
Proof.
  induction atoms as [| a atoms IH]; intros rects st Hinv Hbr; simpl.
  { by eexists. }
  assert (Hbr' : branches_present atoms)
    by (intros x Hx; apply Hbr; by right).
  unfold contributions. simpl. fold (contributions mf excl scale st0 atoms).
  unfold isExcluded at 1.
  destruct (excl && truthy (backgroundColor (style a))); [by apply IH |].
  destruct (getAtomBounds_step mf st0 None st a Hinv)
    as (b & st1 & Hrun & Hinv1 & Hold & Hb).
  pose proof (getAtomBounds_heap_length mf a st) as Hlen.
  pose proof (getAtomBounds_keeps_entry mf a st) as Hkeep.
  rewrite Hrun in Hlen, Hkeep |- *. simpl in Hlen, Hkeep.
  assert (Hval : deref (heap st1) <$> b = atomBoundsValue mf a st0).
  { destruct b as [l |]; [| done].
    destruct Hb as (_ & v0 & -> & Hd). rewrite decide_False in Hd by done.
    simpl. by rewrite Hd. }
  rewrite Hval. unfold contribution.
  assert (Hnext : ∀ rects',
    ∃ st', getRangeBounds_loop mf excl scale atoms rects' st1
           = Normal (fold_left group_add (contributions mf excl scale st0 atoms)
                       rects', st') ∧
      loop_inv mf st0 None st' ∧
      (length (heap st) ≤ length (heap st'))%nat ∧
      (∀ l, (l < length (heap st))%nat → deref (heap st') l = deref (heap st) l) ∧
      (∀ id l, cache_get id st = Some l → cache_get id st' = Some l)).
  { intros rects'. destruct (IH rects' st1 Hinv1 Hbr')
      as (st' & Hrun' & Hinv' & Hlen' & Hold' & Hkeep').
    exists st'. split_and!; [done | done | lia | |].
    - intros l Hl. rewrite Hold' by lia. by apply Hold.
    - intros id l Hl. by apply Hkeep', Hkeep. }
  destruct (adjustForScrolling_number mf (atomBoundsValue mf a st0) scale)
    as [bounds |]; [| apply Hnext].
  destruct (branchId_Normal a) as [k ->]; [apply Hbr; by left |].
  simpl. unfold group_add at 2. simpl.
  destruct (rects_get k rects); apply Hnext.
Qed.

Lemma loop_inv_value_stable (mf : Mathfield) (st0 st : Store) :
  loop_inv mf st0 None st →
  ∀ a, atomBoundsValue mf a st = atomBoundsValue mf a st0.
Proof.
  intros [Hwf _ Hhit Hmiss] a.
  destruct (truthy (atom_id a)) eqn:Ht.
  2:{ by rewrite !atomBoundsValue_falsy. }
  destruct (truthy_Some _ Ht) as [id Hid].
  rewrite !(atomBoundsValue_resolved mf a _ id) by (by rewrite <- ?Hid).
  unfold resolved at 1. destruct (cache_get id st) as [l |] eqn:Hget.
  - destruct (Hhit id l Hget) as (v0 & -> & Hd).
    rewrite decide_False in Hd by done. by rewrite Hd.
  - unfold resolved. by rewrite (Hmiss id Hget).
Qed.

(** [getRangeBounds] returns one rectangle for each branch key, in the order
    in which the keys first appear among the atoms of the range that are
    not skipped and have bounds; the rectangle of a key is the union of the
    adjusted bounds of the atoms of that key. *)
Theorem getRangeBounds_groups (mf : Mathfield) (model : Model) (range : Range)
    (excl : bool) (st : Store) :
  store_wf st →
  branches_present (getAtoms model range) →
  let kvs := contributions mf excl (getRangeBounds_scaleFactor mf) st
               (getAtoms model range) in
  ∃ groups st',
    getRangeBounds mf model range excl st = Normal (groups.*2, st') ∧
    groups.*1 = firstKeys kvs.*1 ∧
    NoDup groups.*1 ∧
    (∀ k, rects_get k groups = unionOf (valuesOf k kvs)) ∧
    (getAtoms model range = [] → groups = []).
Proof.
  intros Hwf Hbr kvs.
  destruct (getRangeBounds_loop_spec mf excl (getRangeBounds_scaleFactor mf) st
              (getAtoms model range) [] st (loop_inv_init mf st Hwf) Hbr)
    as (st' & Hrun & _).
  fold kvs in Hrun. exists (fold_left group_add kvs []), st'. split_and!.
  - unfold getRangeBounds. by rewrite Hrun.
  - by rewrite fold_group_add_keys.
  - rewrite fold_group_add_keys. apply fold_firstKeys_NoDup, NoDup_nil_2.
  - intros k. by rewrite fold_group_add_get.
  - unfold kvs. by intros ->.
Qed.

(** [getRangeBounds] changes no rectangle: it may add entries to the bounds
    cache, but every rectangle and every cache entry that existed is as it
    was, and every atom resolves to the same bounds after the call as
    before it. *)
Theorem getRangeBounds_frame (mf : Mathfield) (model : Model) (range : Range)
    (excl : bool) (st : Store) :
  store_wf st →
  branches_present (getAtoms model range) →
  ∃ rects st',
    getRangeBounds mf model range excl st = Normal (rects, st') ∧
    store_wf st' ∧
    (∀ l, (l < length (heap st))%nat → deref (heap st') l = deref (heap st) l) ∧
    (∀ id l, cache_get id st = Some l → cache_get id st' = Some l) ∧
    (∀ a, atomBoundsValue mf a st' = atomBoundsValue mf a st).
Proof.
  intros Hwf Hbr.
  destruct (getRangeBounds_loop_spec mf excl (getRangeBounds_scaleFactor mf) st
              (getAtoms model range) [] st (loop_inv_init mf st Hwf) Hbr)
    as (st' & Hrun & Hinv & _ & Hold & Hkeep).
  eexists _, st'. split_and!.
  - unfold getRangeBounds. by rewrite Hrun.
  - apply (inv_wf _ _ _ _ Hinv).
  - exact Hold.
  - exact Hkeep.
  - by apply loop_inv_value_stable.
Qed.

Lemma getRangeBounds_loop_excluded (mf : Mathfield) (scale : number)
    (atoms : list Atom) :
  ∀ rects st,
    getRangeBounds_loop mf true scale atoms rects st
    = getRangeBounds_loop mf false scale (List.filter noBackground atoms)
        rects st.
Proof.
  induction atoms as [| a atoms IH]; intros rects st; simpl; [done |].
  unfold noBackground at 1.
  destruct (truthy (backgroundColor (style a))); simpl; [apply IH |].
  destruct (getAtomBounds mf a st) as [b st1].
  destruct (adjustForScrolling_number _ _ _); [| apply IH].
  destruct (branchId a); [| done].
  destruct (rects_get _ _); apply IH.
Qed.

(** With [excludeAtomsWithBackground], the atoms that have a background
    colour are as if they were not in the range: they are skipped before
    their bounds are asked for, so that result and store are those of a
    call without the option on the other atoms. *)
Theorem getRangeBounds_excluded (mf : Mathfield) (model : Model)
    (range : Range) (st : Store) :
  getRangeBounds mf model range true st
  = getRangeBounds mf
      (mkModel (λ r, List.filter noBackground (getAtoms model r))
         (selection_ranges model))
      range false st.
Proof.
  unfold getRangeBounds. simpl. by rewrite getRangeBounds_loop_excluded.
Qed.

(** ** Selection bounds *)

Lemma getRangeBounds_rangeRects (mf : Mathfield) (model : Model)
    (excl : bool) (st0 st : Store) (range : Range) :
  loop_inv mf st0 None st →
  branches_present (getAtoms model range) →
  ∃ st', getRangeBounds mf model range excl st
         = Normal (rangeRects mf model excl st0 range, st') ∧
         loop_inv mf st0 None st'.
Proof.
  intros Hinv Hbr.
  destruct (getRangeBounds_loop_spec mf excl (getRangeBounds_scaleFactor mf)
              st0 (getAtoms model range) [] st Hinv Hbr)
    as (st' & Hrun & Hinv' & _).
  exists st'. split; [| done]. unfold getRangeBounds. by rewrite Hrun.
Qed.

Lemma getSelectionBounds_reduce_spec (mf : Mathfield) (model : Model)
    (excl : bool) (st0 : Store) (ranges : list Range) :
  ∀ acc st,
    loop_inv mf st0 None st →
    (∀ range, range ∈ ranges → branches_present (getAtoms model range)) →
    ∃ st', getSelectionBounds_reduce mf model excl ranges acc st
           = Normal (acc ++ concat (rangeRects mf model excl st0 <$> ranges), st') ∧
           loop_inv mf st0 None st'.
Proof.
  induction ranges as [| x ranges IH]; intros acc st Hinv Hbr; simpl.
  - exists st. by rewrite app_nil_r.
  - destruct (getRangeBounds_rangeRects mf model excl st0 st x Hinv)
      as (st1 & -> & Hinv1); [apply Hbr; by left |].
    destruct (IH (acc ++ rangeRects mf model excl st0 x) st1 Hinv1)
      as (st' & -> & Hinv'); [intros r Hr; apply Hbr; by right |].
    exists st'. by rewrite <- app_assoc.
Qed.

(** The bounds of a selection are the concatenation, in the order of its
    ranges, of the rectangles [getRangeBounds] returns for each range taken
    alone: what the earlier ranges put in the cache does not change the
    rectangles of the later ones. *)
Theorem getSelectionBounds_concat (mf : Mathfield) (model : Model)
    (excl : bool) (st : Store) :
  store_wf st →
  (∀ range, range ∈ selection_ranges model →
     branches_present (getAtoms model range)) →
  ∃ rss st',
    getSelectionBounds mf model excl st = Normal (concat rss, st') ∧
    Forall2 (λ range rs,
               ∃ st'', getRangeBounds mf model range excl st = Normal (rs, st''))
      (selection_ranges model) rss ∧
    (∀ a, atomBoundsValue mf a st' = atomBoundsValue mf a st).
Proof.
  intros Hwf Hbr.
  destruct (getSelectionBounds_reduce_spec mf model excl st
              (selection_ranges model) [] st (loop_inv_init mf st Hwf) Hbr)
    as (st' & Hrun & Hinv).
  exists (rangeRects mf model excl st <$> selection_ranges model), st'.
  split_and!; [exact Hrun | | by apply loop_inv_value_stable].
  apply Forall2_fmap_r, Forall_Forall2_diag, Forall_forall.
  intros range Hr.
  destruct (getRangeBounds_rangeRects mf model excl st st range
              (loop_inv_init mf st Hwf) (Hbr range Hr)) as (st'' & Hrun' & _).
  by exists st''.
Qed.

Lemma branches_present_model_ab (range : Range) :
  branches_present (getAtoms model_ab range).
Proof.
  intros a. simpl.
  intros [-> | [-> | [-> | []%elem_of_nil]%elem_of_cons]%elem_of_cons]%elem_of_cons _;
    by eexists.
Qed.

Lemma store_nocache_wf : store_wf store_nocache.
Proof. by intros id l. Qed.

Lemma getRangeBounds_groups_witness :
  ∃ groups st',
    getRangeBounds mathfield_ab model_ab (0, 1) false store_nocache
    = Normal (groups.*2, st') ∧
    groups.*1 = ["p-above"; "p-below"] ∧
    rects_get "p-above" groups = Some (NRect_of (mkRect 9 30 5 24)).
Proof.
  destruct (getRangeBounds_groups mathfield_ab model_ab (0, 1) false
              store_nocache store_nocache_wf (branches_present_model_ab _))
    as (groups & st' & Hrun & Hkeys & _ & Hget & _).
  exists groups, st'. split; [exact Hrun |]. split.
  - rewrite Hkeys. reflexivity.
  - rewrite Hget. reflexivity.
Defined.

Lemma getRangeBounds_frame_witness :
  ∃ rects st',
    getRangeBounds mathfield_ab model_ab (0, 1) true store_cached
    = Normal (rects, st') ∧
    atomBoundsValue mathfield_ab atom_a st' = Some (mkRect 0 10 0 10).
Proof.
  destruct (getRangeBounds_frame mathfield_ab model_ab (0, 1) true store_cached
              store_cached_wf (branches_present_model_ab _))
    as (rects & st' & Hrun & _ & _ & _ & Hval).
  exists rects, st'. split; [exact Hrun |]. rewrite Hval. reflexivity.
Defined.

Lemma getSelectionBounds_concat_witness :
  ∃ rss st',
    getSelectionBounds mathfield_ab model_ab true store_nocache
    = Normal (concat rss, st') ∧
    length rss = 2%nat.
Proof.
  destruct (getSelectionBounds_concat mathfield_ab model_ab true store_nocache
              store_nocache_wf (λ range _, branches_present_model_ab range))
    as (rss & st' & Hrun & HF & _).
  exists rss, st'. split; [exact Hrun |].
  symmetry. exact (Forall2_length _ _ _ HF).
Defined.

(** ** The scale factor in the adjusted rectangles *)

(** [adjustForScrolling] with a finite scale factor is the function on
    finite numbers.  With an infinite scale factor the top and bottom are
    still finite, and the left and right are infinite, or [NaN] when the
    field is not scrolled. *)
Theorem adjustForScrolling_number_spec (mf : Mathfield) (rect : Rect) :
  (∀ s, adjustForScrolling_number mf None s = None) ∧
  (∀ s, adjustForScrolling_number mf (Some rect) (Num s)
        = NRect_of <$> adjustForScrolling mf (Some rect) s) ∧
  (∀ neg, ∃ r,
     adjustForScrolling_number mf (Some rect) (Infinity neg) = Some r ∧
     ntop r = Num (Math_ceil (top rect - top (el_bounds (field_element (field mf))))%Q) ∧
     (∃ q, nbottom r = Num q) ∧
     nright r = nleft r ∧
     nleft r = if Qis_zero (scrollLeft (field mf)) then NaN
               else Infinity (xorb neg (Qis_negative (scrollLeft (field mf))))).
Proof.
  split_and!; [done | done |].
  intros neg. eexists. split; [reflexivity |]. simpl.
  destruct (Qis_zero (scrollLeft (field mf))); simpl; split_and!; eauto.
Qed.

Lemma scaleFactor_finite (mf : Mathfield) :
  offsetWidth (field mf) ≠ 0 → ∃ s, getRangeBounds_scaleFactor mf = Num s.
Proof.
  intros Hw. unfold getRangeBounds_scaleFactor, js_div.
  destruct (Z.eqb_spec (offsetWidth (field mf)) 0); [done |]. by eexists.
Qed.

Lemma NRect_union_finite (a b : NRect) :
  NRect_finite a → NRect_finite b → NRect_finite (NRect_union a b).
Proof. intros [qa ->] [qb ->]. by exists (rect_union qa qb). Qed.

Lemma rects_get_elem_of (k : string) (rects : list (string * NRect)) (r : NRect) :
  rects_get k rects = Some r → r ∈ rects.*2.
Proof.
  induction rects as [| [k' r'] rects IH]; simpl; [done |].
  destruct (String.eqb k' k).
  - intros [= ->]. by left.
  - intros H. right. by apply IH.
Qed.

Lemma rects_set_Forall (P : NRect → Prop) (k : string) (v : NRect)
    (rects : list (string * NRect)) :
  P v → Forall P rects.*2 → Forall P (rects_set k v rects).*2.
Proof.
  intros Hv. induction rects as [| [k' r'] rects IH]; simpl.
  - intros _. by constructor.
  - intros [Hr Hrest]%Forall_cons. destruct (String.eqb k' k); simpl.
    + by constructor.
    + constructor; [done | by apply IH].
Qed.

Lemma getRangeBounds_loop_finite (mf : Mathfield) (excl : bool) (s : Q)
    (atoms : list Atom) :
  ∀ rects st rects' st',
    Forall NRect_finite rects.*2 →
    getRangeBounds_loop mf excl (Num s) atoms rects st = Normal (rects', st') →
    Forall NRect_finite rects'.*2.
Proof.
  induction atoms as [| a atoms IH]; intros rects st rects' st' Hfin; simpl.
  { by intros [= <- <-]. }
  destruct (excl && _); [by apply IH |].
  destruct (getAtomBounds mf a st) as [b st1].
  destruct b as [l |]; simpl; [| by apply IH].
  destruct (branchId a) as [k |]; [| done].
  set (bounds := mkNRect _ _ _ _).
  assert (Hb : NRect_finite bounds).
  { destruct (adjustForScrolling mf (Some (deref (heap st1) l)) s) as [q |] eqn:E;
      [| done].
    exists q. injection E as <-. reflexivity. }
  destruct (rects_get k rects) as [r |] eqn:Hget; apply IH.
  - apply rects_set_Forall; [| done]. apply NRect_union_finite; [| done].
    apply rects_get_elem_of in Hget.
    by apply (proj1 (Forall_forall _ _) Hfin).
  - by apply rects_set_Forall.
Qed.

(** When the layout width of the field is not zero, every rectangle
    [getRangeBounds] returns has finite sides. *)
Theorem getRangeBounds_finite (mf : Mathfield) (model : Model) (range : Range)
    (excl : bool) (st : Store) (rects : list NRect) (st' : Store) :
  offsetWidth (field mf) ≠ 0 →
  getRangeBounds mf model range excl st = Normal (rects, st') →
  ∀ r, r ∈ rects → NRect_finite r.
Proof.
  intros Hw. unfold getRangeBounds.
  destruct (scaleFactor_finite mf Hw) as [s ->].
  destruct (getRangeBounds_loop _ _ _ _ _ _) as [[groups st''] |] eqn:Hrun;
    [| done].
  intros [= <- <-]. apply Forall_forall.
  eapply getRangeBounds_loop_finite; [| exact Hrun]. by constructor.
Qed.

Lemma getRangeBounds_finite_witness :
  NRect_finite (NRect_of (mkRect 9 30 5 24)).
Proof.
  assert (Hw : offsetWidth (field mathfield_ab) ≠ 0) by discriminate.
  apply (getRangeBounds_finite mathfield_ab model_ab (0, 1) true store_nocache
           _ _ Hw eq_refl).
  by left.
Defined.

(** ** Custom-data tokens: writing and reading back *)

Lemma match_from_key (k : string) :
  ∀ run v,
    JSString.all (notChar "=") k = true →
    JSString.nonEmpty (run +:+ k) = true →
    JSString.nonEmpty v = true →
    JSString.all (λ d, negb (JSString.isLineTerminator d)) v = true →
    JSString.match_from run (k +:+ "=" +:+ v) = Some (run +:+ k, v).
Proof.
  induction k as [| c k IH]; intros run v Hk Hne Hv Hlt.
  - change ("" +:+ "=" +:+ v) with (String "=" v). simpl.
    assert (run +:+ "" = run) as Hrun
      by (clear; induction run as [| d run IH]; [done |];
          rewrite string_app_cons; by f_equal).
    rewrite Hrun in Hne |- *. by rewrite Hne, Hv, Hlt.
  - rewrite string_app_cons. simpl in Hk |- *.
    apply andb_true_iff in Hk as [Hc Hk]. unfold notChar in Hc.
    apply negb_true_iff in Hc. rewrite Hc.
    rewrite IH; try done.
    + f_equal. f_equal. by rewrite string_app_assoc.
    + rewrite string_app_assoc. exact Hne.
Qed.

(** A token written as a key, ['='] and a value reads back as that key,
    trimmed and with hyphens for spaces, and that value, unchanged: the key
    must be free of ['='] and not empty, the value not empty and free of
    line terminators; the value may hold ['='] and spaces.  A token whose
    key is blank is dropped. *)
Theorem htmlData_token_roundtrip (k v : string) :
  JSString.all (notChar "=") k = true →
  JSString.nonEmpty k = true →
  JSString.nonEmpty v = true →
  JSString.all (λ d, negb (JSString.isLineTerminator d)) v = true →
  JSString.match_keyValue (k +:+ "=" +:+ v) = Some (k, v) ∧
  htmlData_token (k +:+ "=" +:+ v)
  = (if JSString.nonEmpty (JSString.replaceSpaces (JSString.trim k))
     then Some (JSString.replaceSpaces (JSString.trim k), Some v)
     else None).
Proof.
  intros Hk Hne Hv Hlt.
  assert (Hm : JSString.match_keyValue (k +:+ "=" +:+ v) = Some (k, v)).
  { unfold JSString.match_keyValue. by rewrite (match_from_key k "" v). }
  split; [exact Hm |]. unfold htmlData_token. by rewrite Hm.
Qed.

Lemma htmlData_token_roundtrip_witness :
  htmlData_token (" my key " +:+ "=" +:+ "x=1 ") = Some ("my-key", Some "x=1 ").
Proof.
  destruct (htmlData_token_roundtrip " my key " "x=1 "
              eq_refl eq_refl eq_refl eq_refl) as [_ H].
  rewrite H. reflexivity.
Defined.

(** ** Whole-range bounding box: what is left untouched *)

Lemma getRangeBoundingRect_loop_inv (mf : Mathfield) (st0 : Store) (n : nat) :
  ∀ i res st,
    loop_inv mf st0 res st →
    (∀ j, j ∈ indices i n → is_Some (model_at mf j)) →
    ∃ res' st',
      getRangeBoundingRect_loop mf n i res st = Normal (res', st') ∧
      loop_inv mf st0 res' st'.
Proof.
  induction n as [| n IH]; intros i res st Hinv Hat; simpl.
  - by eexists _, _.
  - destruct (Hat i) as [a Ha]; [by left |]. rewrite Ha.
    destruct (getAtomBounds_step mf st0 res st a Hinv)
      as (b & st1 & -> & Hinv1 & _ & Hb).
    assert (Hat' : ∀ j, j ∈ indices (i + 1) n → is_Some (model_at mf j))
      by (intros j Hj; apply Hat; by right).
    destruct b as [l |]; [| by apply IH].
    destruct Hb as (Hl & _). destruct res as [r |].
    + apply IH; [by apply loop_inv_extend | done].
    + apply IH; [by apply loop_inv_start | done].
Qed.

(** [getRangeBoundingRect] writes to no rectangle but the one it returns:
    after the call every atom resolves to the bounds it had before, unless
    its rectangle is the returned one. *)
Theorem getRangeBoundingRect_frame (mf : Mathfield) (start end_ : Z)
    (st : Store) :
  store_wf st →
  (∀ i, start ≤ i ≤ end_ → is_Some (model_at mf i)) →
  ∃ r st',
    getRangeBoundingRect mf (start, end_) st = Normal (r, st') ∧
    ∀ a, atomBoundsValue mf a st' = atomBoundsValue mf a st ∨
         (getAtomBounds mf a st').1 = Some r.
Proof.
  intros Hwf Hat.
  destruct (getRangeBoundingRect_loop_inv mf st
              (Z.to_nat (end_ - start + 1)) start None st
              (loop_inv_init mf st Hwf)) as (res & st' & Hloop & Hinv).
  { intros j Hj%elem_of_indices. apply Hat. lia. }
  unfold getRangeBoundingRect. rewrite Hloop.
  assert (Hstable : ∀ st'' r,
    heap st'' = heap st' ∨ (res = None ∧ heap st'' = heap st' ++ [zeroRect]) →
    atomBoundsCache st'' = atomBoundsCache st' →
    (res = None ∨ res = Some r) →
    ∀ a, atomBoundsValue mf a st'' = atomBoundsValue mf a st ∨
         (getAtomBounds mf a st'').1 = Some r).
  { intros st'' r Hheap Hcache Hres a.
    destruct Hinv as [Hwf' _ Hhit Hmiss].
    destruct (truthy (atom_id a)) eqn:Ht.
    2:{ left. by rewrite !atomBoundsValue_falsy. }
    destruct (truthy_Some _ Ht) as [id Hid].
    rewrite !(atomBoundsValue_resolved mf a _ id) by (by rewrite <- ?Hid).
    assert (Hget : cache_get id st'' = cache_get id st')
      by (unfold cache_get; by rewrite Hcache).
    unfold getAtomBounds. rewrite Ht, Hid. simpl. rewrite Hget.
    unfold resolved at 1. rewrite Hget.
    destruct (cache_get id st') as [l |] eqn:Hl.
    - destruct (Hhit id l Hl) as (v0 & Hv0 & Hd).
      case_decide as Hdec.
      + right. destruct Hres as [-> | ->]; [done |]. simpl. congruence.
      + left. rewrite Hv0. f_equal. rewrite <- Hd.
        destruct Hheap as [-> | [_ ->]]; [done |].
        apply deref_app. by eapply Hwf'.
    - left. unfold resolved. by rewrite (Hmiss id Hl). }
  destruct res as [r |].
  - exists r, st'. split; [done |]. apply Hstable; auto.
  - eexists _, _. split; [reflexivity |]. apply Hstable; simpl; auto.
Qed.

Lemma getRangeBoundingRect_frame_witness :
  ∃ r st',
    getRangeBoundingRect mathfield_ab (0, 1) store_cached = Normal (r, st') ∧
    atomBoundsValue mathfield_ab atom_b st' = Some (mkRect 5 20 5 20).
Proof.
  destruct (getRangeBoundingRect_frame mathfield_ab 0 1 store_cached
              store_cached_wf mathfield_ab_atoms) as (r & st' & Hrun & Hframe).
  exists r, st'. split; [exact Hrun |].
  destruct (Hframe atom_b) as [-> | Hb]; [reflexivity |].
  exfalso. revert Hrun Hb. vm_compute. intros [= <- <-]. vm_compute.
  discriminate.
Defined.
